(** * py-qgis-wps: the processing executor and the status handler

    A shallow embedding of [pyqgiswps/executors/processingexecutor.py]
    (class [ProcessingExecutor]) and of [StatusHandler.delete] from
    [pyqgiswps/handlers/wpshandler.py], with the properties of the job
    scheduler, its reaper and its process cache.

    Python statements that touch the log store, the file system, the logger
    or the worker pool are computations in a state-and-exception monad over a
    [World]; [try ... except] is [try_except]. *)

From Stdlib Require Import ZArith Ascii String List Bool Lia.
From stdpp Require Import base option list gmap strings fin_maps.

#[local] Set Warnings "-clear-no-such-hyp".

Local Open Scope string_scope.
Local Open Scope list_scope.
Local Open Scope Z_scope.

(** ** Python exceptions *)

(** The exception classes the two modules raise, catch or let through.  All of
    them derive from [Exception].  [RequestBackendError] carries the exception
    that escaped the worker in its [response] attribute. *)
Inductive exn : Type :=
| KeyError (key : string)
| TypeError (what : string)
| FileNotFoundError (arg : string)
| OSError (path : string)
| TimeoutError
| MaxRequestsExceeded
| RequestBackendError (response : exn)
| ProcessException (msg : string)
| NoApplicableCode (msg : string) (code : Z)
| UnknownProcessError (msg : string)
| OtherError (detail : string).

(** [isinstance(e, ProcessException)] *)
Definition is_ProcessException (e : exn) : bool :=
  match e with ProcessException _ => true | _ => false end.

(** [str(e)]: the text an exception was raised with (the name of the class
    for the ones raised without any). *)
Definition exn_str (e : exn) : string :=
  match e with
  | KeyError k => k
  | TypeError s => s
  | FileNotFoundError a => a
  | OSError p => p
  | TimeoutError => "TimeoutError"
  | MaxRequestsExceeded => "MaxRequestsExceeded"
  | RequestBackendError _ => "RequestBackendError"
  | ProcessException m => m
  | NoApplicableCode m _ => m
  | UnknownProcessError m => m
  | OtherError d => d
  end.

(** ** The STATUS enumeration *)

(** A member of the [STATUS] enumeration: its name and its integer value. *)
Record member : Type := Member { name : string; value : Z }.

(** [pyqgiswps.app.WPSResponse.STATUS] is imported by the executor and
    declared in a module that is not embedded here: the development takes
    the enumeration as a parameter.  [members] is the table behind
    [STATUS[name]]; the four named members are the ones the executor refers
    to; [ACCEPTED_STATUS] is the member under which the log store files a
    new request. *)
Class StatusEnum : Type := {
  members : list member;
  STORE_STATUS : member;
  STORE_AND_UPDATE_STATUS : member;
  DONE_STATUS : member;
  ERROR_STATUS : member;
  ACCEPTED_STATUS : member
}.

(** ** Job records, the log store and the world *)

(** A record of the log store, a dictionary in the code.  An optional field
    is [None] when the key is absent, which is what [rec.get(k)] returns then.
    Times are whole seconds: the reaper reads the timestamp through
    [int(...)] and compares the age, [now_ts - int(timestamp)], with the
    integer [timeout] and [expiration], and for an integer [n] the test
    [x >= n] holds of a number exactly when it holds of its integer part; so
    [timestamp] stands for [int(rec['timestamp'])] and the clock for its
    integer part. *)
Record JobRecord : Type := {
  uuid : string;
  status : string;
  message : string;
  progress : option Z;
  timestamp : option Z;
  timeout : option Z;
  expiration : option Z;
  pinned : option bool
}.

(** What the server logger, the log store, the pool and the file system were
    asked to do, in program order. *)
Inductive Event : Type :=
| LogInfo (fmt : string) (args : list string)
| LogError (fmt : string) (args : list string)
| LogRequest (id : string)
| UpdateStatus (id msg : string) (pct : option Z) (st : option member)
| DeleteResponse (id : string)
| ApplyAsync (id : string) (tmo : Z)
| EnsureFuture (id : string)
| Rmtree (path : string).

(** The state the executor acts on: the records of the log store, the
    directories that exist (each under its normalised absolute path), the
    directories on which [shutil.rmtree] raises, the reading of the wall
    clock in seconds, and the calls made so far (most recent first). *)
Record World : Type := {
  records : gmap string JobRecord;
  dirs : gset string;
  faulty : gset string;
  clock : Z;
  trace : list Event
}.

Definition set_records (f : gmap string JobRecord → gmap string JobRecord) (w : World) : World :=
  {| records := f (records w); dirs := dirs w; faulty := faulty w;
     clock := clock w; trace := trace w |}.

Definition set_dirs (f : gset string → gset string) (w : World) : World :=
  {| records := records w; dirs := f (dirs w); faulty := faulty w;
     clock := clock w; trace := trace w |}.

Definition emit (e : Event) (w : World) : World :=
  {| records := records w; dirs := dirs w; faulty := faulty w;
     clock := clock w; trace := e :: trace w |}.

(** ** The state-and-exception monad *)

Inductive Res (A : Type) : Type :=
| Ret (a : A) (w : World)
| Raise (e : exn) (w : World).
Arguments Ret {A} a w.
Arguments Raise {A} e w.

Definition M (A : Type) : Type := World → Res A.

Definition ret {A} (a : A) : M A := λ w, Ret a w.
Definition raise {A} (e : exn) : M A := λ w, Raise e w.
Definition bind {A B} (c : M A) (k : A → M B) : M B :=
  λ w, match c w with
       | Ret a w' => k a w'
       | Raise e w' => Raise e w'
       end.

#[global] Instance M_ret : MRet M := @ret.
#[global] Instance M_bind : MBind M := λ A B k c, bind c k.

(** [try: body except ...: handler]: [handler e] is [None] when no [except]
    clause matches [e], and the exception goes on. *)
Definition try_except {A} (body : M A) (handler : exn → option (M A)) : M A :=
  λ w, match body w with
       | Ret a w' => Ret a w'
       | Raise e w' =>
           match handler e with
           | Some h => h w'
           | None => Raise e w'
           end
       end.

Definition modify (f : World → World) : M unit := λ w, Ret tt (f w).
Definition tell (e : Event) : M unit := modify (emit e).

(** [for x in xs: body x] *)
Fixpoint for_each {A} (xs : list A) (body : A → M unit) : M unit :=
  match xs with
  | [] => ret tt
  | x :: xs' => bind (body x) (λ _, for_each xs' body)
  end.

Definition returned {A} (r : Res A) : Prop :=
  match r with Ret _ _ => True | Raise _ _ => False end.

Definition world_of {A} (r : Res A) : World :=
  match r with Ret _ w => w | Raise _ w => w end.

(** ** Configuration *)

(** The options of [confservice['server']] the two functions read. *)
Record Config : Type := {
  workdir : string;
  response_expiration : Z
}.

(** ** The collaborators: file system and log store *)

(** [os.path.join(base, leaf)] for a base without a trailing slash, as
    [os.path.abspath] returns it, and a leaf that is a plain file name (see
    [plain_name]), as the uuid of a job is. *)
Definition path_join (base leaf : string) : string := base +:+ "/" +:+ leaf.

(** [c in s] for a character. *)
Definition has_char (c : ascii) (s : string) : bool :=
  existsb (Ascii.eqb c) (list_ascii_of_string s).



(** [datetime.utcnow().timestamp()], in whole seconds. *)
Definition utcnow_timestamp : M Z := λ w, Ret (clock w) w.

(** [os.path.isdir(path)] *)
Definition os_path_isdir (path : string) : M bool :=
  λ w, Ret (bool_decide (path ∈ dirs w)) w.

(** [shutil.rmtree(path)]: raises on the directories marked faulty and leaves
    them in place, removes the directory otherwise.  The directories of the
    world are a flat set of names: what lies below a removed directory is not
    part of the model. *)
Definition shutil_rmtree (path : string) : M unit :=
  λ w, let w1 := emit (Rmtree path) w in
       if bool_decide (path ∈ faulty w) then Raise (OSError path) w1
       else Ret tt (set_dirs (λ d, d ∖ {[path]}) w1).

(** Modelled from the spec: [logstore], of [pyqgiswps/executors/logstore.py],
    is missing.  The status store is a key to record store keyed by job id:
    [get_status(id)] fetches the record or [None]. *)
Definition logstore_get_status (id : string) : M (option JobRecord) :=
  λ w, Ret (records w !! id) w.

(** Modelled from the spec: [deleteResponse(id)] of the status store, which
    deletes the record filed under [id]. *)
Definition logstore_delete_response (id : string) : M unit :=
  modify (λ w, emit (DeleteResponse id) (set_records (delete id) w)).

(** Modelled from the spec: [records], the iterable of (id, record) pairs of
    the status store; [list(logstore.records)] is a snapshot of it. *)
Definition logstore_records : M (list (string * JobRecord)) :=
  λ w, Ret (map_to_list (records w)) w.

(** ** Requests, responses and processes *)

(** What calling a process handler does: it returns, or an exception escapes
    it. *)
Inductive handler_behaviour : Type :=
| Returns
| Fails (e : exn).

(** A process definition: its [identifier], the map it was specialised for
    (if any), its working directory and its [handler]. *)
Record WPSProcess : Type := {
  identifier : string;
  context : option string;
  proc_workdir : string;
  handler : handler_behaviour
}.

Record WPSRequest : Type := {
  req_identifier : string;
  req_timeout : Z;
  req_expiration : option Z
}.

Record WPSResponse : Type := {
  resp_uuid : string;
  resp_status : member;
  store : bool;
  document : string;
  process : WPSProcess
}.

Definition set_store (b : bool) (r : WPSResponse) : WPSResponse :=
  {| resp_uuid := resp_uuid r; resp_status := resp_status r; store := b;
     document := document r; process := process r |}.

(** Modelled from the spec: the pool client, of
    [pyqgiswps/poolserver/client.py], is missing.  How the worker pool treats
    one submitted unit: the pool returns the produced artifact or raises one of timeout, pool
    saturated, worker raised (with the original error).  [Breaks] stands for
    any other exception out of the pool client. *)
Inductive pool_behaviour : Type :=
| Saturated
| TimesOut (started : bool)
| Completes
| Breaks (e : exn).

(** [try: body finally: fin] *)
Definition try_finally {A} (body : M A) (fin : M unit) : M A :=
  λ w, match body w with
       | Ret a w' =>
           match fin w' with Ret _ w'' => Ret a w'' | Raise e w'' => Raise e w'' end
       | Raise e w' =>
           match fin w' with Ret _ w'' => Raise e w'' | Raise e' w'' => Raise e' w'' end
       end.

(** [os.chdir(path)] *)
Definition os_chdir (path : string) : M unit :=
  λ w, if bool_decide (path ∈ dirs w) then Ret tt w
       else Raise (FileNotFoundError path) w.


Section Executor.
Context `{E : StatusEnum}.
Variable cfg : Config.

(** The member called [n], if the enumeration has one. *)
Definition lookup_member (n : string) : option member :=
  List.find (λ m, String.eqb (name m) n) members.

(** [STATUS[name]]: the member of that name, [KeyError] when there is none. *)
Definition STATUS_getitem (n : string) : M member :=
  match lookup_member n with
  | Some m => ret m
  | None => raise (KeyError n)
  end.

(** [int(v)] on a field read with [rec.get]. *)
Definition py_int (v : option Z) : M Z :=
  match v with
  | Some z => ret z
  | None => raise (TypeError "int() argument must be a number, not 'NoneType'")
  end.

(** ** The reaper: [_clean_processes] *)

(** How the [try] block of the loop body ends: with [continue], or by falling
    through to the expiration test with the current value of [dangling]. *)
Inductive flow : Type :=
| Continue
| Next (dangling : bool).

(** The body of the [for] loop of [_clean_processes] for one record. *)
Definition clean_record (now_ts : Z) (workdir_base : string) (expire_default : Z)
    (rec : JobRecord) : M unit :=
  let timestamp := timestamp rec in
  let dangling := bool_decide (timestamp = None) in
  fl ← try_except
         (if negb dangling then
            st ← STATUS_getitem (status rec);
            if value st <? value DONE_STATUS then
              let timeout := timeout rec in
              dangling ← match timeout with
                         | None => ret true
                         | Some t => ts ← py_int timestamp; ret (now_ts - ts >=? t)
                         end;
              if negb dangling then ret Continue else ret (Next dangling)
            else ret (Next dangling)
          else ret (Next dangling))
         (λ e, match e with
               | KeyError _ => Some (ret (Next dangling))
               | _ => None
               end);
  match fl with
  | Continue => ret tt
  | Next dangling =>
      let expiration := default expire_default (expiration rec) in
      let notpinned := negb (default false (pinned rec)) in
      go ← (if notpinned
            then if dangling then ret true
                 else ts ← py_int timestamp; ret (now_ts - ts >=? expiration)
            else ret false);
      if (go : bool) then
        let uuid_str := uuid rec in
        let workdir := path_join workdir_base uuid_str in
        tell (LogInfo "Cleaning response status: %s" [uuid_str]);;
        try_except
          (isd ← os_path_isdir workdir;
           if (isd : bool) then shutil_rmtree workdir else ret tt)
          (λ err, Some (tell (LogError "Unable to remove directory: %s" [exn_str err])));;
        logstore_delete_response uuid_str
      else ret tt
  end.

(** [ProcessingExecutor._clean_processes()] *)
Definition _clean_processes : M unit :=
  let workdir_base := workdir cfg in
  let expire_default := response_expiration cfg in
  now_ts ← utcnow_timestamp;
  recs ← logstore_records;
  for_each recs (λ kr, clean_record now_ts workdir_base expire_default kr.2).

(** ** [delete_results] and the DELETE handler *)

(** [ProcessingExecutor.delete_results(uuid)].  The [try] block either
    returns [False] or falls through ([None] below). *)
Definition delete_results (id : string) : M bool :=
  rec ← logstore_get_status id;
  match rec with
  | None => raise (FileNotFoundError id)
  | Some rec =>
      early ← try_except
                (st ← STATUS_getitem (status rec);
                 if value st <? value DONE_STATUS then ret (Some false) else ret None)
                (λ e, match e with
                      | KeyError _ => Some (ret None)
                      | _ => None
                      end);
      match early with
      | Some b => ret b
      | None =>
          let workdir0 := workdir cfg in
          let uuid_str := uuid rec in
          let workdir := path_join workdir0 uuid_str in
          tell (LogInfo "Cleaning response status: %s" [uuid_str]);;
          try_except
            (isd ← os_path_isdir workdir;
             if (isd : bool) then shutil_rmtree workdir else ret tt)
            (λ err, Some (tell (LogError "Unable to remove directory: %s: %s"
                                         [workdir; exn_str err])));;
          logstore_delete_response uuid_str;;
          ret true
      end
  end.

(** What a request handler leaves behind: the HTTP status set with
    [set_status] (200 unless set) and the JSON body written, if any. *)
Record Reply : Type := {
  http_status : Z;
  json : option (string * string)
}.

(** [StatusHandler.delete(uuid)] *)
Definition StatusHandler_delete (id : option string) : M Reply :=
  match id with
  | None => ret {| http_status := 400; json := Some ("error", "Missing uuid") |}
  | Some id =>
      try_except
        (success ← delete_results id;
         if negb success
         then ret {| http_status := 409; json := None |}
         else ret {| http_status := 200; json := None |})
        (λ e, match e with
              | FileNotFoundError _ => Some (ret {| http_status := 404; json := None |})
              | _ => None
              end)
  end.

(** ** The scheduler: [execute] and [_run_process] *)

(** Modelled from the spec: [logRequest(id, request)] of the status store,
    which files the job record of an accepted request (no timestamp yet: the
    job was not started by a worker). *)
Definition accepted_record (id : string) (req : WPSRequest) : JobRecord :=
  {| uuid := id; status := name ACCEPTED_STATUS; message := "";
     progress := None; timestamp := None; timeout := Some (req_timeout req);
     expiration := req_expiration req; pinned := Some false |}.

(** Modelled from the spec: [logstore.log_request(id, request)], which is
    missing, writes the accepted job record under the id. *)
Definition logstore_log_request (id : string) (req : WPSRequest) : M unit :=
  modify (λ w, emit (LogRequest id)
                 (set_records (insert id (accepted_record id req)) w)).

(** Modelled from the spec: [updateStatus(id, message, progress?, status)] of
    the status store, reached through [WPSResponse.update_status], which is
    missing: the message is replaced, progress and
    status are replaced when given, and the timestamp (the last-progress
    wall-clock time) is set to the time of the update. *)
Definition apply_status (now : Z) (msg : string) (pct : option Z) (st : option member)
    (r : JobRecord) : JobRecord :=
  {| uuid := uuid r;
     status := from_option name (status r) st;
     message := msg;
     progress := from_option Some (progress r) pct;
     timestamp := Some now; timeout := timeout r;
     expiration := expiration r; pinned := pinned r |}.

(** Modelled from the spec: [wps_response.update_status(message,
    status_percentage, status)], which is missing, updates the record of the
    response's job in the status store. *)
Definition update_status (wps_response : WPSResponse) (msg : string)
    (pct : option Z) (st : option member) : M unit :=
  let id := resp_uuid wps_response in
  modify (λ w, emit (UpdateStatus id msg pct st)
                 (set_records (alter (apply_status (clock w) msg pct st) id) w)).

(** [handler(wps_request, wps_response)] *)
Definition call_handler (h : handler_behaviour) : M unit :=
  match h with
  | Returns => ret tt
  | Fails e => raise e
  end.

(** [with memory_logger(response): body]: the memory figures are logged on
    the way out, whatever happened. *)
Definition memory_logger {A} (wps_response : WPSResponse) (body : M A) : M A :=
  try_finally body
    (tell (LogInfo "{4}:{0} memory" [resp_uuid wps_response;
                                     identifier (process wps_response)])).

(** [ProcessingExecutor._run_process(handler, wps_request, wps_response)],
    the unit of work the pool runs. *)
Definition _run_process (h : handler_behaviour) (wps_request : WPSRequest)
    (wps_response : WPSResponse) : M string :=
  try_except
    (let workdir := proc_workdir (process wps_response) in
     os_chdir workdir;;
     update_status wps_response "Task started" (Some 0) None;;
     memory_logger wps_response
       (call_handler h;;
        update_status wps_response "Task finished" (Some 100) (Some DONE_STATUS);;
        ret (document wps_response)))
    (λ e, match e with
          | ProcessException _ =>
              Some (update_status wps_response (exn_str e) None (Some ERROR_STATUS);;
                    raise e)
          | _ =>
              Some (update_status wps_response "Internal error" None (Some ERROR_STATUS);;
                    raise e)
          end).

(** A future of the pool: what [await apply_future] does. *)
Definition Future : Type := M string.

(** [self._pool.apply_async(fn, args=..., timeout=timeout)]: the unit is
    submitted and a future comes back.  Awaiting it raises
    [MaxRequestsExceeded] when the pool was saturated (the unit never ran),
    [asyncio.TimeoutError] when the budget ran out (the worker may have
    announced its start), [RequestBackendError] around whatever escaped the
    worker, and yields the worker's result otherwise. *)
Definition pool_apply_async (pool : pool_behaviour) (fn : M string)
    (wps_response : WPSResponse) (tmo : Z) : M Future :=
  tell (ApplyAsync (resp_uuid wps_response) tmo);;
  ret (match pool with
       | Saturated => raise MaxRequestsExceeded
       | TimesOut started =>
           (if started
            then update_status wps_response "Task started" (Some 0) None
            else ret tt);;
           raise TimeoutError
       | Completes =>
           try_except fn (λ e, Some (raise (RequestBackendError e)))
       | Breaks e => raise e
       end).

(** The coroutine [do_execute_async] defined inside [execute]. *)
Definition do_execute_async (wps_response : WPSResponse) (apply_future : Future) : M unit :=
  try_except
    (apply_future;; ret tt)
    (λ e, match e with
          | TimeoutError =>
              Some (update_status wps_response "Timeout Error" None (Some ERROR_STATUS))
          | MaxRequestsExceeded =>
              Some (update_status wps_response "Server busy, please retry later" None
                      (Some ERROR_STATUS))
          | _ =>
              Some (tell (LogError "traceback.format_exc()" [exn_str e]);;
                    update_status wps_response "Internal Error" None (Some ERROR_STATUS))
          end).

(** [asyncio.ensure_future(coro)]: the coroutine is handed to the event loop
    and nothing is awaited. *)
Definition asyncio_ensure_future (wps_response : WPSResponse) (coro : M unit) : M (M unit) :=
  tell (EnsureFuture (resp_uuid wps_response));;
  ret coro.

(** [ProcessingExecutor.execute(wps_request, wps_response)] against a pool
    that behaves as [pool].  The value is what the call returns together with
    the detached task given to the event loop, if any.  ([process.uuid =
    wps_response.uuid] has no counterpart: the job id is read from the
    response throughout.) *)
Definition execute (pool : pool_behaviour) (wps_request : WPSRequest)
    (wps_response : WPSResponse) : M (string * option (M unit)) :=
  let process := process wps_response in
  logstore_log_request (resp_uuid wps_response) wps_request;;
  let wps_response :=
    set_store (value (resp_status wps_response) >=? value STORE_STATUS) wps_response in
  let tmo := req_timeout wps_request in
  apply_future ← pool_apply_async pool
                    (_run_process (handler process) wps_request wps_response)
                    wps_response tmo;
  if value (resp_status wps_response) =? value STORE_AND_UPDATE_STATUS then
    task ← asyncio_ensure_future wps_response
              (do_execute_async wps_response apply_future);
    update_status wps_response "Task accepted" None None;;
    ret (document wps_response, Some task)
  else
    r ← try_except apply_future
          (λ e, match e with
                | TimeoutError =>
                    Some (update_status wps_response "Timeout Error" None
                            (Some ERROR_STATUS);;
                          raise (NoApplicableCode "Execute Timeout" 424))
                | MaxRequestsExceeded =>
                    Some (raise (NoApplicableCode "Server busy, please retry later" 509))
                | RequestBackendError response =>
                    if is_ProcessException response
                    then Some (raise (NoApplicableCode "Process Error" 424))
                    else Some (raise e)
                | _ => None
                end);
    ret (r, None).

(** What [execute] does once the unit is submitted (lines 231 to 269), for
    the response with its [store] flag set and the future the pool gave: in
    store-and-update mode the coroutine is detached, the status updated and
    the document returned; otherwise the future is awaited and its failures
    are mapped to the errors of the protocol. *)
Definition await_or_detach (wps_response : WPSResponse) (apply_future : Future)
    : M (string * option (M unit)) :=
  if value (resp_status wps_response) =? value STORE_AND_UPDATE_STATUS then
    task ← asyncio_ensure_future wps_response
              (do_execute_async wps_response apply_future);
    update_status wps_response "Task accepted" None None;;
    ret (document wps_response, Some task)
  else
    r ← try_except apply_future
          (λ e, match e with
                | TimeoutError =>
                    Some (update_status wps_response "Timeout Error" None
                            (Some ERROR_STATUS);;
                          raise (NoApplicableCode "Execute Timeout" 424))
                | MaxRequestsExceeded =>
                    Some (raise (NoApplicableCode "Server busy, please retry later" 509))
                | RequestBackendError response =>
                    if is_ProcessException response
                    then Some (raise (NoApplicableCode "Process Error" 424))
                    else Some (raise e)
                | _ => None
                end);
    ret (r, None).

(** The event loop running a detached task: an exception that escaped the
    task would stay in the task object. *)
Definition run_detached (task : M unit) (w : World) : World := world_of (task w).

End Executor.

(** ** The cache of contextualized processes and [get_processes] *)

(** The result of a call that does not act on the [World]. *)
Inductive outcome (A : Type) : Type :=
| Returned (a : A)
| Raised (e : exn).
Arguments Returned {A} a.
Arguments Raised {A} e.

(** A cache key: [(map_uri, identifier)]. *)
Definition cache_key : Type := string * string.

(** Modelled from the spec: [lrucache], of [pyqgiswps/utils/lru.py], is
    missing.  A fixed-capacity least-recently-used map: the entries
    are kept most recently used first; [put] beyond capacity evicts the least
    recently used entry. *)
Record lrucache : Type := {
  capacity : nat;
  entries : list (cache_key * WPSProcess)
}.

Fixpoint assoc (k : cache_key) (l : list (cache_key * WPSProcess)) : option WPSProcess :=
  match l with
  | [] => None
  | (k', v) :: l' => if decide (k = k') then Some v else assoc k l'
  end.

Fixpoint remove_key (k : cache_key) (l : list (cache_key * WPSProcess))
    : list (cache_key * WPSProcess) :=
  match l with
  | [] => []
  | (k', v) :: l' => if decide (k = k') then remove_key k l' else (k', v) :: remove_key k l'
  end.

(** [key in cache] *)
Definition lru_contains (k : cache_key) (c : lrucache) : bool :=
  bool_decide (is_Some (assoc k (entries c))).

(** [cache[key]]: the value, and the entry becomes the most recently used. *)
Definition lru_getitem (k : cache_key) (c : lrucache) : option (WPSProcess * lrucache) :=
  match assoc k (entries c) with
  | None => None
  | Some v => Some (v, {| capacity := capacity c;
                          entries := (k, v) :: remove_key k (entries c) |})
  end.

(** [cache[key] = value] *)
Definition lru_setitem (k : cache_key) (v : WPSProcess) (c : lrucache) : lrucache :=
  {| capacity := capacity c;
     entries := take (capacity c) ((k, v) :: remove_key k (entries c)) |}.

(** [lrucache(50)] *)
Definition lrucache_new (n : nat) : lrucache := {| capacity := n; entries := [] |}.

(** The process factory, as far as [get_processes] uses it. *)
Record ProcessFactory : Type := {
  qgis_enabled : bool;
  create_contextualized_processes : list string → string → list WPSProcess
}.

(** The attributes of a [ProcessingExecutor] that [get_processes] reads and
    writes. *)
Record ProcessingExecutor : Type := {
  processes : gmap string WPSProcess;
  _context_processes : lrucache;
  _factory : ProcessFactory
}.

Definition set_cache (c : lrucache) (self : ProcessingExecutor) : ProcessingExecutor :=
  {| processes := processes self; _context_processes := c; _factory := _factory self |}.

(** [{ p.identifier: p for p in processes }], as in [__init__]. *)
Definition processes_dict (ps : list WPSProcess) : gmap string WPSProcess :=
  foldl (λ d p, <[identifier p := p]> d) ∅ ps.

(** [[self.processes[ident] for ident in identifiers]] *)
Fixpoint lookup_processes (d : gmap string WPSProcess) (identifiers : list string)
    : outcome (list WPSProcess) :=
  match identifiers with
  | [] => Returned []
  | ident :: rest =>
      match d !! ident with
      | None => Raised (KeyError ident)
      | Some p =>
          match lookup_processes d rest with
          | Returned ps => Returned (p :: ps)
          | Raised e => Raised e
          end
      end
  end.

(** [[self._context_processes[(map_uri, p.identifier)] for p in processes]] *)
Fixpoint fetch_cached (map_uri : string) (ps : list WPSProcess) (c : lrucache)
    : outcome (list WPSProcess) * lrucache :=
  match ps with
  | [] => (Returned [], c)
  | p :: rest =>
      match lru_getitem (map_uri, identifier p) c with
      | None => (Raised (KeyError (identifier p)), c)
      | Some (v, c1) =>
          match fetch_cached map_uri rest c1 with
          | (Returned vs, c2) => (Returned (v :: vs), c2)
          | (Raised e, c2) => (Raised e, c2)
          end
      end
  end.

(** The double quote character. *)
Definition dquote : ascii := ascii_of_nat 34.

(** The lowercase hexadecimal digit of a number below sixteen. *)
Definition hex_digit (n : nat) : ascii :=
  match String.get n "0123456789abcdef" with
  | Some c => c
  | None => "0"%char
  end.

(** How [repr] writes one character of a string delimited by [quote]: the
    quote and the backslash are escaped with a backslash, tab, newline and
    carriage return are written with their letter, the other control
    characters as [\xhh], and everything else as it is (for a character
    that is not ASCII this is what [repr] does when it is printable). *)
Definition repr_char (quote c : ascii) : string :=
  let n := nat_of_ascii c in
  if Ascii.eqb c quote || Ascii.eqb c "\"%char then String "\"%char (String c "")
  else if Nat.eqb n 9 then "\t"
  else if Nat.eqb n 10 then "\n"
  else if Nat.eqb n 13 then "\r"
  else if Nat.ltb n 32 || Nat.eqb n 127
       then "\x" +:+ String (hex_digit (Nat.div n 16)) (String (hex_digit (Nat.modulo n 16)) "")
  else String c "".

Fixpoint repr_chars (quote : ascii) (s : string) : string :=
  match s with
  | EmptyString => EmptyString
  | String c s' => repr_char quote c +:+ repr_chars quote s'
  end.

(** [repr(s)] of a string: in single quotes, or in double quotes when the
    string holds a single quote and no double quote.  The model is exact on
    ASCII strings (see [is_ascii]); beyond ASCII [repr] also escapes the
    characters that are not printable. *)
Definition py_repr (s : string) : string :=
  let quote := if has_char "'"%char s && negb (has_char dquote s)
               then dquote else "'"%char in
  String quote (repr_chars quote s +:+ String quote "").

(** The strings of ASCII characters. *)
Definition is_ascii (s : string) : bool :=
  forallb (λ c, Nat.ltb (nat_of_ascii c) 128) (list_ascii_of_string s).

(** A printable ASCII character other than the single quote and the
    backslash. *)
Definition plain_char (c : ascii) : bool :=
  let n := nat_of_ascii c in
  Nat.leb 32 n && Nat.ltb n 127
  && negb (Ascii.eqb c "'"%char) && negb (Ascii.eqb c "\"%char).

(** The strings [repr] only wraps in single quotes. *)
Definition plain_text (s : string) : bool :=
  forallb plain_char (list_ascii_of_string s).

(** [str(exc)] for a [KeyError]: the repr of the key. *)
Definition str_KeyError (e : exn) : string :=
  match e with
  | KeyError k => py_repr k
  | _ => exn_str e
  end.

(** [ProcessingExecutor.get_processes(identifiers, map_uri=None)] *)
Definition get_processes (self : ProcessingExecutor) (identifiers : list string)
    (map_uri : option string) : outcome (list WPSProcess) * ProcessingExecutor :=
  match lookup_processes (processes self) identifiers with
  | Raised exc => (Raised (UnknownProcessError (str_KeyError exc)), self)
  | Returned ps =>
      match map_uri with
      | Some uri =>
          if qgis_enabled (_factory self) then
            let _test p := negb (lru_contains (uri, identifier p) (_context_processes self)) in
            if existsb _test ps then
              let ps' := create_contextualized_processes (_factory self) identifiers uri in
              let c := foldl (λ c p, lru_setitem (uri, identifier p) p c)
                         (_context_processes self) ps' in
              (Returned ps', set_cache c self)
            else
              let '(r, c) := fetch_cached uri ps (_context_processes self) in
              (r, set_cache c self)
          else (Returned ps, self)
      | None => (Returned ps, self)
      end
  end.

(** ** The vocabulary of the specification *)

Section Vocabulary.
Context `{E : StatusEnum}.
Variable cfg : Config.

(** The status of the record names a member of the enumeration below the
    DONE threshold: the job is still in flight. *)
Definition known_nonterminal (r : JobRecord) : Prop :=
  ∃ m, lookup_member (status r) = Some m ∧ value m < value DONE_STATUS.

(** The status of the record names no member of the enumeration. *)
Definition unknown_status (r : JobRecord) : Prop :=
  lookup_member (status r) = None.

(** Dangling, in the words of the specification: the timestamp is absent, or
    the status is a known non-terminal status and the timeout is absent or
    has run out. *)
Definition dangling (now : Z) (r : JobRecord) : Prop :=
  timestamp r = None ∨
  (known_nonterminal r ∧
   (timeout r = None ∨
    ∃ ts t, timestamp r = Some ts ∧ timeout r = Some t ∧ now - ts >= t)).

(** Expired, in the words of the specification: the age of the record has
    reached its expiration, the server-wide one when the record has none. *)
Definition expired (now : Z) (r : JobRecord) : Prop :=
  ∃ ts, timestamp r = Some ts ∧
        now - ts >= default (response_expiration cfg) (expiration r).

(** [rec.get('pinned', False)] is true. *)
Definition is_pinned (r : JobRecord) : Prop := pinned r = Some true.

(** A job that is legitimately still running: known non-terminal status and
    not dangling. *)
Definition live (now : Z) (r : JobRecord) : Prop :=
  known_nonterminal r ∧ ¬ dangling now r.

(** The working directory of a record. *)
Definition workdir_of (r : JobRecord) : string := path_join (workdir cfg) (uuid r).

(** Every record of the store is filed under its own [uuid]. *)
Definition store_keyed (w : World) : Prop :=
  map_Forall (λ k r, uuid r = k) (records w).

(** The rule for reclaiming a record as the specification words it: not
    pinned, and dangling or expired. *)
Definition reclaimable (now : Z) (r : JobRecord) : Prop :=
  ¬ is_pinned r ∧ (dangling now r ∨ expired now r).

(** [known_nonterminal], as a boolean. *)
Definition in_flight (r : JobRecord) : bool :=
  match lookup_member (status r) with
  | Some m => value m <? value DONE_STATUS
  | None => false
  end.

(** The reaper's verdict on one record, as a boolean: the record is reaped
    when it is not pinned and has no timestamp, or is in flight with a
    timeout that is absent or ran out, or is not in flight and has an age
    past its expiration. *)
Definition reaps (now : Z) (r : JobRecord) : bool :=
  negb (default false (pinned r)) &&
  match timestamp r with
  | None => true
  | Some ts =>
      if in_flight r
      then match timeout r with None => true | Some t => now - ts >=? t end
      else now - ts >=? default (response_expiration cfg) (expiration r)
  end.

(** The world after the reaper removed record [r]. *)
Definition reaped (r : JobRecord) (w : World) : World :=
  let path := workdir_of r in
  let w1 := emit (LogInfo "Cleaning response status: %s" [uuid r]) w in
  let w2 :=
    if bool_decide (path ∈ dirs w) then
      if bool_decide (path ∈ faulty w)
      then emit (LogError "Unable to remove directory: %s" [path]) (emit (Rmtree path) w1)
      else set_dirs (λ d, d ∖ {[path]}) (emit (Rmtree path) w1)
    else w1 in
  emit (DeleteResponse (uuid r)) (set_records (delete (uuid r)) w2).

(** Synchronous mode is every response status but store-and-update. *)
Definition sync_mode (wps_response : WPSResponse) : Prop :=
  value (resp_status wps_response) ≠ value STORE_AND_UPDATE_STATUS.

(** Asynchronous mode: the response is to be stored and updated. *)
Definition async_mode (wps_response : WPSResponse) : Prop :=
  value (resp_status wps_response) = value STORE_AND_UPDATE_STATUS.

(** The record of job [id] carries the failed status and the message [msg]. *)
Definition marked_failed (id msg : string) (w : World) : Prop :=
  ∃ r, records w !! id = Some r ∧ status r = name ERROR_STATUS ∧ message r = msg.

(** The message the specification attaches to a failure of the detached
    task: timeout, server busy, or a generic internal error. *)
Definition failure_message (e : exn) : string :=
  match e with
  | TimeoutError => "Timeout Error"
  | MaxRequestsExceeded => "Server busy, please retry later"
  | _ => "Internal Error"
  end.

(** The world after [delete_results] removed record [r]. *)
Definition deleted (r : JobRecord) (w : World) : World :=
  let path := workdir_of r in
  let w1 := emit (LogInfo "Cleaning response status: %s" [uuid r]) w in
  let w2 :=
    if bool_decide (path ∈ dirs w) then
      if bool_decide (path ∈ faulty w)
      then emit (LogError "Unable to remove directory: %s: %s" [path; path])
             (emit (Rmtree path) w1)
      else set_dirs (λ d, d ∖ {[path]}) (emit (Rmtree path) w1)
    else w1 in
  emit (DeleteResponse (uuid r)) (set_records (delete (uuid r)) w2).

(** The world after the reaper went through the records [l] in order. *)
Definition sweep (now : Z) (l : list (string * JobRecord)) (w : World) : World :=
  foldl (λ w kr, if reaps now kr.2 then reaped kr.2 w else w) w l.

End Vocabulary.

(** [cache[(map_uri, p.identifier)] = p], one turn of the update loop of
    [get_processes]. *)
Definition cache_put (uri : string) (c : lrucache) (p : WPSProcess) : lrucache :=
  lru_setitem (uri, identifier p) p c.

(** Every requested identifier has an entry in the cache for the map. *)
Definition all_cached (uri : string) (identifiers : list string) (c : lrucache) : Prop :=
  ∀ i, i ∈ identifiers → is_Some (assoc (uri, i) (entries c)).

(** Every process of the executor is filed under its own identifier, as
    [__init__] and [reload_qgis_processes] build the dictionary. *)
Definition processes_keyed (self : ProcessingExecutor) : Prop :=
  map_Forall (λ k p, identifier p = k) (processes self).

(** The definitions put so far sit at the front of the cache, each under the
    key of its own identifier. *)
Definition fresh_front (uri : string) (seen : list WPSProcess) (c : lrucache) : Prop :=
  ∃ front rest,
    entries c = front ++ rest ∧
    (length front ≤ length seen)%nat ∧
    (∀ k v, (k, v) ∈ front → v ∈ seen ∧ k = (uri, identifier v)) ∧
    (∀ p, p ∈ seen → is_Some (assoc (uri, identifier p) front)).

(** ** The periodic cleanup task *)

Definition set_clock (f : Z → Z) (w : World) : World :=
  {| records := records w; dirs := dirs w; faulty := faulty w;
     clock := f (clock w); trace := trace w |}.

(** [await asyncio.sleep(delay)]: the clock moves on by the delay; a delay
    that is not positive returns at once. *)
Definition asyncio_sleep (delay : Z) : M unit :=
  modify (set_clock (λ t, t + Z.max 0 delay)).

Section CleanupTask.
Context `{E : StatusEnum}.
Variable cfg : Config.

(** One turn of the [while True] loop of [_run_cleanup], the coroutine that
    [schedule_cleanup] hands to the event loop; [interval] is the
    [cleanup_interval] option of the server.  (The traceback printed by
    [traceback.print_exc()] goes to standard error, which the world does not
    record.) *)
Definition cleanup_turn (interval : Z) : M unit :=
  asyncio_sleep interval;;
  try_except (_clean_processes cfg)
    (λ e, Some (tell (LogError "Cleanup task failed: %s" [exn_str e]))).

(** The first [turns] turns of [_run_cleanup]; the loop itself never ends. *)
Fixpoint _run_cleanup (interval : Z) (turns : nat) : M unit :=
  match turns with
  | O => ret tt
  | S n => cleanup_turn interval;; _run_cleanup interval n
  end.

End CleanupTask.

(** ** Building and reloading the executor *)

(** [ProcessingExecutor.__init__(processes)], as far as the attributes read
    by [get_processes] go: the dictionary of processes by identifier and an
    empty cache of fifty entries. *)
Definition ProcessingExecutor_init (factory : ProcessFactory) (ps : list WPSProcess)
    : ProcessingExecutor :=
  {| processes := processes_dict ps;
     _context_processes := lrucache_new 50;
     _factory := factory |}.

(** [ProcessingExecutor.list_processes()]: [self.processes.values()], in the
    order the map lists its keys (Python lists them in insertion order). *)
Definition list_processes (self : ProcessingExecutor) : list WPSProcess :=
  (map_to_list (processes self)).*2.

(** Modelled from the spec: [clear()] of the job cache, which is missing. *)
Definition lru_clear (c : lrucache) : lrucache :=
  {| capacity := capacity c; entries := [] |}.

(** [ProcessingExecutor.reload_qgis_processes()].  [created] is what
    [factory.create_qgis_processes()] does: the new processes, or an
    exception.  The value is what the call returns, the executor afterwards
    and what it logged (most recent first). *)
Definition reload_qgis_processes (created : outcome (list WPSProcess))
    (self : ProcessingExecutor) : outcome unit * ProcessingExecutor * list Event :=
  let factory := _factory self in
  if qgis_enabled factory then
    let log1 := [LogInfo "Reloading Qgis providers" []] in
    match created with
    | Returned ps =>
        (Returned tt,
         {| processes := processes_dict ps;
            _context_processes := lru_clear (_context_processes self);
            _factory := _factory self |},
         log1)
    | Raised (ProcessException _) =>
        (Returned tt, self, LogError "Failed to reload Qgis processes" [] :: log1)
    | Raised e => (Raised e, self, log1)
    end
  else (Returned tt, self, []).

(** ** More vocabulary *)

Section MoreVocabulary.
Context `{E : StatusEnum}.

(** The record of job [id] carries the done status, the message of a
    finished task and a progress of 100. *)
Definition marked_done (id : string) (w : World) : Prop :=
  ∃ r, records w !! id = Some r ∧ status r = name DONE_STATUS ∧
       message r = "Task finished" ∧ progress r = Some 100.

(** The exceptions the synchronous branch of [execute] has an [except] clause
    for. *)
Definition handled_by_execute (e : exn) : bool :=
  match e with
  | TimeoutError | MaxRequestsExceeded | RequestBackendError _ => true
  | _ => false
  end.

End MoreVocabulary.

(** ** Reading the status over HTTP *)

(** Modelled from the spec: [getStatus()] of the status store without an id,
    which is missing, returns the records of all jobs. *)
Definition logstore_get_status_all : M (list JobRecord) :=
  λ w, Ret ((map_to_list (records w)).*2) w.

(** The two URL templates of the application's configuration and the proxy
    URL of the request: [cfg['status_url'].format(host_url=..., uuid=...)],
    [cfg['store_url'].format(host_url=..., uuid=..., file="")] and
    [self.proxy_url()]. *)
Record StatusLinks : Type := {
  proxy_url : string;
  format_status_url : string → string → string;
  format_store_url : string → string → string
}.

(** A status record with the three links [repl] adds to it. *)
Record StatusView : Type := {
  view_record : JobRecord;
  status_url : string;
  store_url : string;
  request_url : string
}.

(** The JSON document a status request writes. *)
Inductive StatusBody : Type :=
| ErrorBody (msg : string)
| OneStatus (v : StatusView)
| AllStatus (vs : list StatusView).

Record StatusReply : Type := {
  reply_code : Z;
  reply_body : StatusBody
}.

(** The inner function [repl] of [get_wps_status]. *)
Definition repl (links : StatusLinks) (s : JobRecord) : StatusView :=
  {| view_record := s;
     status_url := format_status_url links (proxy_url links) (uuid s);
     store_url := format_store_url links (proxy_url links) (uuid s);
     request_url := proxy_url links +:+ "status/" +:+ uuid s +:+ "?key=request" |}.

(** [StatusHandler.get_wps_status(uuid)]; the status is 200 unless set. *)
Definition get_wps_status (links : StatusLinks) (id : option string) : M StatusReply :=
  match id with
  | Some id =>
      wps_status ← logstore_get_status id;
      match wps_status with
      | None =>
          ret {| reply_code := 404;
                 reply_body := ErrorBody ("process " +:+ id +:+ " not found") |}
      | Some s =>
          ret {| reply_code := 200; reply_body := OneStatus (repl links s) |}
      end
  | None =>
      wps_status ← logstore_get_status_all;
      ret {| reply_code := 200; reply_body := AllStatus (repl links <$> wps_status) |}
  end.

(** ** A concrete enumeration and configuration *)

(** Modelled from the spec: the declaration of [STATUS] is missing.  The
    members the executor names, ordered so that a numeric comparison tells
    in-flight statuses (below [DONE_STATUS]) from terminal ones; a new
    request is filed under the lowest one. *)
Definition wps_status : StatusEnum := {|
  members := [Member "NO_STATUS" 0; Member "STORE_STATUS" 10;
              Member "STORE_AND_UPDATE_STATUS" 20;
              Member "DONE_STATUS" 30; Member "ERROR_STATUS" 40];
  STORE_STATUS := Member "STORE_STATUS" 10;
  STORE_AND_UPDATE_STATUS := Member "STORE_AND_UPDATE_STATUS" 20;
  DONE_STATUS := Member "DONE_STATUS" 30;
  ERROR_STATUS := Member "ERROR_STATUS" 40;
  ACCEPTED_STATUS := Member "NO_STATUS" 0
|}.

Definition sample_cfg : Config :=
  {| workdir := "/srv/wps"; response_expiration := 86400 |}.

(** A job still running when the clock reads 600: started at 100 with a
    timeout of 1000 seconds, and a retention of 100 seconds. *)
Definition running_job : JobRecord :=
  {| uuid := "job-1"; status := "STORE_STATUS"; message := "Task started";
     progress := Some 0; timestamp := Some 100; timeout := Some 1000;
     expiration := Some 100; pinned := None |}.

(** A finished job of the same age. *)
Definition finished_job : JobRecord :=
  {| uuid := "job-2"; status := "DONE_STATUS"; message := "Task finished";
     progress := Some 100; timestamp := Some 100; timeout := Some 1000;
     expiration := Some 100; pinned := None |}.

(** A record written under an older status scheme. *)
Definition legacy_job : JobRecord :=
  {| uuid := "job-3"; status := "ProcessSucceeded"; message := "";
     progress := None; timestamp := Some 100; timeout := Some 10;
     expiration := Some 1000; pinned := Some false |}.

Definition sample_world : World :=
  {| records := <["job-1" := running_job]> (<["job-2" := finished_job]>
                  (<["job-3" := legacy_job]> ∅));
     dirs := {[ "/srv/wps/job-1"; "/srv/wps/job-2"; "/srv/wps/job-3" ]};
     faulty := ∅;
     clock := 600;
     trace := [] |}.

(** An execute request with a budget of five seconds, and two responses for
    it: one to wait for, one to store and poll, both for a process whose
    handler lets an unexpected error escape. *)
Definition sample_request : WPSRequest :=
  {| req_identifier := "script:buffer"; req_timeout := 5; req_expiration := None |}.

Definition failing_process : WPSProcess :=
  {| identifier := "script:buffer"; context := None;
     proc_workdir := "/srv/wps/job-9";
     handler := Fails (OtherError "connection to db refused: password=hunter2") |}.

Definition sync_response : WPSResponse :=
  {| resp_uuid := "job-9"; resp_status := Member "STORE_STATUS" 10; store := false;
     document := "<wps:ExecuteResponse/>"; process := failing_process |}.

Definition async_response : WPSResponse :=
  {| resp_uuid := "job-9"; resp_status := Member "STORE_AND_UPDATE_STATUS" 20;
     store := false; document := "<wps:ExecuteResponse/>";
     process := failing_process |}.

Definition fresh_world : World :=
  {| records := ∅; dirs := {[ "/srv/wps/job-9" ]}; faulty := ∅; clock := 600;
     trace := [] |}.

(** An executor with two processes, an empty cache of capacity 50 and a
    factory that specialises each requested identifier for the map. *)
Definition base_process (ident : string) : WPSProcess :=
  {| identifier := ident; context := None; proc_workdir := ""; handler := Returns |}.

Definition specialise (identifiers : list string) (uri : string) : list WPSProcess :=
  (λ ident, {| identifier := ident; context := Some uri; proc_workdir := "";
               handler := Returns |}) <$> identifiers.

Definition sample_executor : ProcessingExecutor :=
  {| processes := processes_dict [base_process "script:buffer";
                                  base_process "script:centroids"];
     _context_processes := lrucache_new 50;
     _factory := {| qgis_enabled := true;
                    create_contextualized_processes := specialise |} |}.

(** A pinned job, long past its retention, in a store of its own, next to a
    directory that belongs to no record. *)
Definition pinned_job : JobRecord :=
  {| uuid := "job-7"; status := "DONE_STATUS"; message := "Task finished";
     progress := Some 100; timestamp := Some 100; timeout := Some 10;
     expiration := Some 100; pinned := Some true |}.

Definition pinned_world : World :=
  {| records := <["job-7" := pinned_job]> ∅;
     dirs := {[ "/srv/wps/job-7"; "/srv/wps/lost+found" ]};
     faulty := ∅;
     clock := 600;
     trace := [] |}.

(** A process whose handler returns, one whose handler raises a process
    exception, and responses for them. *)
Definition good_process : WPSProcess :=
  {| identifier := "script:buffer"; context := None;
     proc_workdir := "/srv/wps/job-9"; handler := Returns |}.

Definition rejecting_process : WPSProcess :=
  {| identifier := "script:buffer"; context := None;
     proc_workdir := "/srv/wps/job-9";
     handler := Fails (ProcessException "Invalid input: DISTANCE") |}.

Definition sync_ok_response : WPSResponse :=
  {| resp_uuid := "job-9"; resp_status := Member "STORE_STATUS" 10; store := false;
     document := "<wps:ExecuteResponse/>"; process := good_process |}.

Definition async_ok_response : WPSResponse :=
  {| resp_uuid := "job-9"; resp_status := Member "STORE_AND_UPDATE_STATUS" 20;
     store := false; document := "<wps:ExecuteResponse/>"; process := good_process |}.

Definition async_rejecting_response : WPSResponse :=
  {| resp_uuid := "job-9"; resp_status := Member "STORE_AND_UPDATE_STATUS" 20;
     store := false; document := "<wps:ExecuteResponse/>";
     process := rejecting_process |}.

(** The world right after the sample request was filed. *)
Definition accepted_world : World :=
  {| records := <["job-9" := accepted_record (E := wps_status) "job-9" sample_request]> ∅;
     dirs := {[ "/srv/wps/job-9" ]}; faulty := ∅; clock := 600; trace := [] |}.

(** Links of a server behind a proxy. *)
Definition sample_links : StatusLinks :=
  {| proxy_url := "https://maps.example.org/";
     format_status_url := λ host id, host +:+ "status/" +:+ id;
     format_store_url := λ host id, host +:+ "store/" +:+ id +:+ "/" |}.

(** The sample store on a file system that refuses to remove the working
    directory of the finished job. *)
Definition stubborn_world : World :=
  {| records := records sample_world;
     dirs := dirs sample_world;
     faulty := {[ "/srv/wps/job-2" ]};
     clock := 600;
     trace := [] |}.

(** * Properties *)

(** ** The monad *)

Ltac unfold_monad :=
  unfold mbind, M_bind, mret, M_ret, bind, ret, raise, tell, modify,
    try_except, try_finally in *.

Section ReaperFacts.
Context `{E : StatusEnum}.
Variable cfg : Config.

Lemma in_flight_true r :
  in_flight r = true ↔ known_nonterminal r.
Proof.
  unfold in_flight, known_nonterminal. split.
  - destruct (lookup_member (status r)) as [m|] eqn:Hm; [|done].
    intros Hlt%Z.ltb_lt. by exists m.
  - intros (m & -> & Hlt). by apply Z.ltb_lt.
Qed.

(** One turn of the reaper's loop never raises, and does what [reaps] says. *)
Lemma clean_record_eq now r w :
  clean_record now (workdir cfg) (response_expiration cfg) r w
  = Ret tt (if reaps cfg now r then reaped cfg r w else w).
Proof.
  unfold clean_record, reaps, reaped, workdir_of, in_flight, STATUS_getitem, py_int,
    logstore_delete_response, os_path_isdir, shutil_rmtree.
  unfold_monad.
  destruct r as [u st msg pg ts tmo ex pin]; simpl.
  destruct ts as [ts|]; simpl.
  - destruct (lookup_member st) as [m|]; simpl.
    + destruct (value m <? value DONE_STATUS); simpl.
      * destruct tmo as [t|]; simpl.
        -- destruct (now - ts >=? t); simpl.
           ++ destruct (default false pin); simpl; [done|].
              repeat case_bool_decide; simpl; done.
           ++ by destruct (default false pin).
        -- destruct (default false pin); simpl; [done|].
           repeat case_bool_decide; simpl; done.
      * destruct (default false pin); simpl; [done|].
        destruct (now - ts >=? default (response_expiration cfg) ex); simpl; [|done].
        repeat case_bool_decide; simpl; done.
    + destruct (default false pin); simpl; [done|].
      destruct (now - ts >=? default (response_expiration cfg) ex); simpl; [|done].
      repeat case_bool_decide; simpl; done.
  - destruct (default false pin); simpl; [done|].
    repeat case_bool_decide; simpl; done.
Qed.

Lemma sweep_cons now kr l w :
  sweep cfg now (kr :: l) w
  = sweep cfg now l (if reaps cfg now kr.2 then reaped cfg kr.2 w else w).
Proof. reflexivity. Qed.

Lemma for_each_clean now l w :
  for_each l (λ kr, clean_record now (workdir cfg) (response_expiration cfg) kr.2) w
  = Ret tt (sweep cfg now l w).
Proof.
  revert w. induction l as [|kr l IH]; intros w; [done|].
  rewrite sweep_cons. simpl. unfold bind at 1. rewrite clean_record_eq. apply IH.
Qed.

Lemma clean_processes_eq w :
  _clean_processes cfg w = Ret tt (sweep cfg (clock w) (map_to_list (records w)) w).
Proof.
  unfold _clean_processes, logstore_records, utcnow_timestamp. unfold_monad.
  apply for_each_clean.
Qed.

Lemma reaped_faulty r w : faulty (reaped cfg r w) = faulty w.
Proof. unfold reaped. by repeat case_bool_decide. Qed.

Lemma reaped_records r w : records (reaped cfg r w) = delete (uuid r) (records w).
Proof. unfold reaped. by repeat case_bool_decide. Qed.

Lemma reaped_dirs r w p :
  p ∈ dirs (reaped cfg r w) ↔
  p ∈ dirs w ∧ (p = workdir_of cfg r → p ∈ faulty w).
Proof.
  unfold reaped. repeat case_bool_decide; simpl; set_solver.
Qed.

Lemma sweep_faulty now l w : faulty (sweep cfg now l w) = faulty w.
Proof.
  revert w. induction l as [|kr l IH]; intros w; [done|].
  rewrite sweep_cons, IH.
  destruct (reaps cfg now kr.2); [apply reaped_faulty|done].
Qed.

(** The store after a sweep: a record is gone exactly when some swept record
    with its key was reaped. *)
Lemma sweep_records now l w k :
  records (sweep cfg now l w) !! k =
  if existsb (λ kr, reaps cfg now kr.2 && bool_decide (uuid kr.2 = k)) l
  then None else records w !! k.
Proof.
  revert w. induction l as [|kr l IH]; intros w; [done|].
  rewrite sweep_cons, IH. cbn [existsb].
  destruct (reaps cfg now kr.2) eqn:Hr; cbn [andb orb]; [|done].
  rewrite reaped_records.
  destruct (existsb _ l); [by rewrite orb_true_r|]. rewrite orb_false_r.
  case_bool_decide as Hk.
  - rewrite <- Hk. apply lookup_delete_eq.
  - by apply lookup_delete_ne.
Qed.

(** The directories after a sweep: a directory is gone exactly when it is the
    working directory of a reaped record and [rmtree] did not fail on it. *)
Lemma sweep_dirs now l w p :
  p ∈ dirs (sweep cfg now l w) ↔
  p ∈ dirs w ∧
  (existsb (λ kr, reaps cfg now kr.2 && bool_decide (workdir_of cfg kr.2 = p)) l = true
   → p ∈ faulty w).
Proof.
  revert w. induction l as [|kr l IH]; intros w.
  - cbn. naive_solver.
  - rewrite sweep_cons, IH. cbn [existsb].
    destruct (reaps cfg now kr.2) eqn:Hr; cbn [andb orb]; [|done].
    rewrite reaped_dirs, reaped_faulty.
    case_bool_decide as Hp; cbn [orb].
    + naive_solver.
    + naive_solver.
Qed.

(** In a store keyed by uuid, the swept snapshot reaps key [k] exactly when
    the record filed under [k] is one the reaper reaps. *)
Lemma snapshot_reaps now w k r :
  store_keyed w →
  records w !! k = Some r →
  existsb (λ kr, reaps cfg now kr.2 && bool_decide (uuid kr.2 = k))
    (map_to_list (records w)) = reaps cfg now r.
Proof.
  intros Hkeyed Hk.
  destruct (reaps cfg now r) eqn:Hr.
  - apply existsb_exists. exists (k, r). split.
    + apply list_elem_of_In, elem_of_map_to_list. done.
    + simpl. rewrite Hr. simpl. apply bool_decide_eq_true. by apply Hkeyed.
  - apply not_true_is_false. intros [[k' r'] [Hin Hb]]%existsb_exists.
    apply list_elem_of_In, elem_of_map_to_list in Hin. simpl in *.
    apply andb_true_iff in Hb as [Hr' Hu%bool_decide_eq_true].
    pose proof (Hkeyed _ _ Hin) as Hk'. assert (k' = k) by congruence. subst k'.
    congruence.
Qed.

Lemma snapshot_absent now w k :
  records w !! k = None →
  records (sweep cfg now (map_to_list (records w)) w) !! k = None.
Proof.
  intros Hk. rewrite sweep_records. by destruct (existsb _ _).
Qed.

(** The record filed under [k] after a full scan. *)
Lemma scan_lookup now w k r :
  store_keyed w →
  records w !! k = Some r →
  records (sweep cfg now (map_to_list (records w)) w) !! k
  = if reaps cfg now r then None else Some r.
Proof.
  intros Hkeyed Hk. rewrite sweep_records, (snapshot_reaps now w k r); [|done..].
  by destruct (reaps cfg now r).
Qed.

Lemma path_join_inj base a b : path_join base a = path_join base b → a = b.
Proof.
  unfold path_join. intros H.
  apply (inj (String.app base)) in H. by apply (inj (String.app "/")) in H.
Qed.

(** A kept record keeps its working directory: no other record of a keyed
    store has the same one. *)
Lemma scan_keeps_dir now w k r :
  store_keyed w →
  records w !! k = Some r →
  reaps cfg now r = false →
  existsb (λ kr, reaps cfg now kr.2 && bool_decide (workdir_of cfg kr.2 = workdir_of cfg r))
    (map_to_list (records w)) = false.
Proof.
  intros Hkeyed Hk Hr. apply not_true_is_false.
  intros [[k' r'] [Hin Hb]]%existsb_exists.
  apply list_elem_of_In, elem_of_map_to_list in Hin. simpl in *.
  apply andb_true_iff in Hb as [Hr' Hp%bool_decide_eq_true].
  apply path_join_inj in Hp.
  pose proof (Hkeyed _ _ Hin) as Hk'. pose proof (Hkeyed _ _ Hk) as Hk''.
  assert (k' = k) by congruence. subst k'. congruence.
Qed.

(** Boolean readings of the specification's words. *)
Lemma dangling_iff now r :
  dangling now r ↔
  match timestamp r with
  | None => True
  | Some ts =>
      in_flight r = true ∧
      match timeout r with None => True | Some t => (now - ts >=? t) = true end
  end.
Proof.
  unfold dangling. rewrite <- in_flight_true.
  destruct (timestamp r) as [ts|], (timeout r) as [t|]; rewrite ?Z.geb_le.
  - split.
    + intros [?|[? [?|(ts' & t' & ? & ? & ?)]]]; simplify_eq. split; [done|lia].
    + intros [? ?]. right. split; [done|]. right. exists ts, t. repeat split; lia.
  - naive_solver.
  - naive_solver.
  - naive_solver.
Qed.

Lemma expired_iff now r :
  expired cfg now r ↔
  match timestamp r with
  | None => False
  | Some ts => (now - ts >=? default (response_expiration cfg) (expiration r)) = true
  end.
Proof.
  unfold expired. destruct (timestamp r) as [ts|]; rewrite ?Z.geb_le.
  - split.
    + intros (ts' & ? & ?); simplify_eq. lia.
    + intros ?. exists ts. split; [done|lia].
  - naive_solver.
Qed.

Lemma is_pinned_iff r : is_pinned r ↔ default false (pinned r) = true.
Proof. unfold is_pinned. destruct (pinned r) as [[|]|]; naive_solver. Qed.

(** The boolean verdict says what the specification's words say, once the
    running jobs are set apart. *)
Lemma reaps_spec now r :
  reaps cfg now r = true ↔
  ¬ live now r ∧ reclaimable cfg now r.
Proof.
  unfold reaps, live, reclaimable.
  rewrite is_pinned_iff, dangling_iff, expired_iff, <- in_flight_true.
  destruct (default false (pinned r)), (timestamp r) as [ts|], (in_flight r),
    (timeout r) as [t|]; simpl;
    try destruct (now - ts >=? t);
    try destruct (now - ts >=? default (response_expiration cfg) (expiration r));
    naive_solver.
Qed.

End ReaperFacts.

(** ** The reaper's scan *)

Section Reaper.
Context `{E : StatusEnum}.
Variable cfg : Config.

(** C1 (as the code has it).  After a scan cycle over a store keyed by uuid,
    the record filed under [k] is deleted exactly when it is not a job that is
    legitimately still running and the rule of the specification holds: not
    pinned, and dangling or expired.  A deleted record has lost its working
    directory unless [rmtree] failed on it; a surviving record is unchanged
    and so is its working directory; a pinned record survives; and a running
    job is passed over whatever the expiration says. *)
Theorem reaper_reclaims_exactly (w : World) (k : string) (r : JobRecord) :
  store_keyed w →
  records w !! k = Some r →
  let now := clock w in
  let res := _clean_processes cfg w in
  let w' := world_of res in
  returned res ∧
  (records w' !! k = None ↔ ¬ live now r ∧ reclaimable cfg now r) ∧
  (records w' !! k = None →
     workdir_of cfg r ∉ faulty w → workdir_of cfg r ∉ dirs w') ∧
  (records w' !! k ≠ None →
     records w' !! k = Some r ∧
     (workdir_of cfg r ∈ dirs w' ↔ workdir_of cfg r ∈ dirs w)) ∧
  (is_pinned r → records w' !! k = Some r) ∧
  (live now r →
     ∀ base expire_default w0,
       clean_record now base expire_default r w0 = Ret tt w0).
Proof.
  intros Hkeyed Hk now res w'. subst res w'.
  rewrite clean_processes_eq. fold now. simpl.
  rewrite (scan_lookup cfg now w k r Hkeyed Hk).
  pose proof (reaps_spec cfg now r) as Hspec.
  split; [exact I|].
  destruct (reaps cfg now r) eqn:Hr.
  - (* the record is reaped *)
    destruct Hspec as [Hspec _]. specialize (Hspec eq_refl) as [Hnl [Hnp Hde]].
    repeat split; try done.
    intros _ Hok Hin.
    destruct (proj1 (sweep_dirs cfg now _ w _) Hin) as [_ Himp].
    apply Hok, Himp.
    apply existsb_exists. exists (k, r). split.
    + by apply list_elem_of_In, elem_of_map_to_list.
    + simpl. rewrite Hr. simpl. by apply bool_decide_eq_true.
  - (* the record is kept *)
    assert (Hno : ¬ (¬ live now r ∧ reclaimable cfg now r)).
    { intros H. apply Hspec in H. done. }
    repeat split; try done.
    + rewrite sweep_dirs. naive_solver.
    + rewrite sweep_dirs, (scan_keeps_dir cfg now w k r Hkeyed Hk Hr). naive_solver.
    + intros Hlive base expire_default w0.
      set (cfg0 := {| workdir := base; response_expiration := expire_default |}).
      change (clean_record now (workdir cfg0) (response_expiration cfg0) r w0 = Ret tt w0).
      rewrite clean_record_eq.
      destruct (reaps cfg0 now r) eqn:Hr0; [|done].
      apply reaps_spec in Hr0 as [Hnl _]. done.
Qed.

(** C9.  A record whose status names no member of the enumeration does not
    make the scan raise: the lookup raises [KeyError], the handler passes, the
    timeout is not consulted, and the record is decided by the pinned flag and
    the expiration alone (or by its missing timestamp).  The other records
    of the store are treated exactly as if the record were not there. *)
Theorem reaper_tolerates_unknown_status (w : World) (k : string) (r : JobRecord) :
  store_keyed w →
  records w !! k = Some r →
  unknown_status r →
  let now := clock w in
  let res := _clean_processes cfg w in
  STATUS_getitem (status r) w = Raise (KeyError (status r)) w ∧
  returned res ∧
  (records (world_of res) !! k = None ↔
     ¬ is_pinned r ∧ (timestamp r = None ∨ expired cfg now r)) ∧
  (∀ k', k' ≠ k →
     records (world_of res) !! k' =
     records (world_of (_clean_processes cfg (set_records (delete k) w))) !! k').
Proof.
  intros Hkeyed Hk Hunk now res. subst res.
  rewrite !clean_processes_eq. simpl. fold now.
  split; [|split; [exact I|split]].
  - unfold STATUS_getitem. unfold unknown_status in Hunk. by rewrite Hunk.
  - rewrite (scan_lookup cfg now w k r Hkeyed Hk).
    assert (Hnf : in_flight r = false).
    { unfold in_flight. unfold unknown_status in Hunk. by rewrite Hunk. }
    unfold reaps. rewrite Hnf, is_pinned_iff, expired_iff.
    destruct (default false (pinned r)), (timestamp r) as [ts|]; simpl;
      try destruct (now - ts >=? default (response_expiration cfg) (expiration r));
      naive_solver.
  - intros k' Hne.
    assert (Hkeyed' : store_keyed (set_records (delete k) w)).
    { unfold store_keyed. simpl. by apply map_Forall_delete. }
    destruct (records w !! k') as [r'|] eqn:Hk'.
    + rewrite (scan_lookup cfg now w k' r' Hkeyed Hk').
      rewrite (scan_lookup cfg now _ k' r' Hkeyed'); [done|].
      simpl. by rewrite lookup_delete_ne.
    + rewrite (snapshot_absent cfg now w k' Hk').
      pose proof (snapshot_absent cfg now (set_records (delete k) w) k') as Habs.
      simpl in Habs. rewrite Habs; [done|]. by rewrite lookup_delete_ne.
Qed.

End Reaper.

(** ** Deleting a job on request *)

Section DeleteFacts.
Context `{E : StatusEnum}.
Variable cfg : Config.

(** [delete_results] in one equation. *)
Lemma delete_results_eq id w :
  delete_results cfg id w =
  match records w !! id with
  | None => Raise (FileNotFoundError id) w
  | Some r => if in_flight r then Ret false w else Ret true (deleted cfg r w)
  end.
Proof.
  unfold delete_results, logstore_get_status, STATUS_getitem, in_flight, deleted,
    workdir_of, logstore_delete_response, os_path_isdir, shutil_rmtree.
  unfold_monad.
  destruct (records w !! id) as [r|]; [|done].
  destruct (lookup_member (status r)) as [m|]; simpl.
  - destruct (value m <? value DONE_STATUS); simpl; [done|].
    repeat case_bool_decide; simpl; done.
  - repeat case_bool_decide; simpl; done.
Qed.

Lemma deleted_records r w : records (deleted cfg r w) = delete (uuid r) (records w).
Proof. unfold deleted. by repeat case_bool_decide. Qed.

Lemma deleted_dirs r w p :
  p ∈ dirs (deleted cfg r w) ↔
  p ∈ dirs w ∧ (p = workdir_of cfg r → p ∈ faulty w).
Proof. unfold deleted. repeat case_bool_decide; simpl; set_solver. Qed.

(** A failing [rmtree] is logged, from inside the [except] clause. *)
Lemma deleted_logs_fault r w :
  workdir_of cfg r ∈ dirs w →
  workdir_of cfg r ∈ faulty w →
  LogError "Unable to remove directory: %s: %s" [workdir_of cfg r; workdir_of cfg r]
    ∈ trace (deleted cfg r w).
Proof.
  intros Hd Hf. unfold deleted.
  rewrite !bool_decide_eq_true_2 by done. simpl. set_solver.
Qed.

(** The DELETE handler in one equation. *)
Lemma StatusHandler_delete_eq id w :
  StatusHandler_delete cfg (Some id) w =
  match delete_results cfg id w with
  | Ret true w' => Ret {| http_status := 200; json := None |} w'
  | Ret false w' => Ret {| http_status := 409; json := None |} w'
  | Raise (FileNotFoundError _) w' => Ret {| http_status := 404; json := None |} w'
  | Raise e w' => Raise e w'
  end.
Proof.
  unfold StatusHandler_delete. unfold_monad.
  destruct (delete_results cfg id w) as [[|] w'|e w']; simpl; try done.
  by destruct e.
Qed.

End DeleteFacts.

Section DeleteResults.
Context `{E : StatusEnum}.
Variable cfg : Config.

(** C2.  [delete_results] on a store keyed by uuid: with no record under the
    id it raises [FileNotFoundError] and the handler answers 404; with a
    record in a known non-terminal status it returns [False], the handler
    answers 409 and the world is left as it was; otherwise it returns [True],
    the handler answers 200, the record is gone, the working directory is gone
    unless [rmtree] failed on it, in which case the failure is logged, and a
    second delete raises [FileNotFoundError] again (404). *)
Theorem delete_results_contract (id : string) (w : World) :
  store_keyed w →
  (records w !! id = None →
     delete_results cfg id w = Raise (FileNotFoundError id) w ∧
     StatusHandler_delete cfg (Some id) w
       = Ret {| http_status := 404; json := None |} w) ∧
  (∀ r, records w !! id = Some r → known_nonterminal r →
     delete_results cfg id w = Ret false w ∧
     StatusHandler_delete cfg (Some id) w
       = Ret {| http_status := 409; json := None |} w) ∧
  (∀ r, records w !! id = Some r → ¬ known_nonterminal r →
     ∃ w',
       delete_results cfg id w = Ret true w' ∧
       StatusHandler_delete cfg (Some id) w
         = Ret {| http_status := 200; json := None |} w' ∧
       records w' !! id = None ∧
       (workdir_of cfg r ∉ faulty w → workdir_of cfg r ∉ dirs w') ∧
       (workdir_of cfg r ∈ dirs w → workdir_of cfg r ∈ faulty w →
          LogError "Unable to remove directory: %s: %s"
            [workdir_of cfg r; workdir_of cfg r] ∈ trace w') ∧
       delete_results cfg id w' = Raise (FileNotFoundError id) w' ∧
       StatusHandler_delete cfg (Some id) w'
         = Ret {| http_status := 404; json := None |} w').
Proof.
  intros Hkeyed. split; [|split].
  - intros Hnone. rewrite StatusHandler_delete_eq, delete_results_eq, Hnone. done.
  - intros r Hr Hkn%in_flight_true.
    rewrite StatusHandler_delete_eq, delete_results_eq, Hr, Hkn. done.
  - intros r Hr Hkn.
    assert (Hnf : in_flight r = false).
    { apply not_true_is_false. by rewrite in_flight_true. }
    assert (Hid : uuid r = id) by (by apply Hkeyed).
    assert (Hgone : records (deleted cfg r w) !! id = None).
    { rewrite deleted_records, Hid. apply lookup_delete_eq. }
    exists (deleted cfg r w).
    rewrite !StatusHandler_delete_eq, !delete_results_eq, Hr, Hnf, Hgone.
    repeat split; try done.
    + intros Hok Hin. apply deleted_dirs in Hin as [_ Hin]. by apply Hok, Hin.
    + apply deleted_logs_fault.
Qed.

(** C10.  A record whose status names no member of the enumeration is deleted
    like a finished one, whatever its timestamp and timeout say: the lookup
    raises [KeyError], the handler passes, the call returns [True], the record
    is gone and so is the working directory unless [rmtree] failed on it. *)
Theorem delete_results_unknown_status (id : string) (w : World) (r : JobRecord) :
  store_keyed w →
  records w !! id = Some r →
  unknown_status r →
  STATUS_getitem (status r) w = Raise (KeyError (status r)) w ∧
  ∃ w',
    delete_results cfg id w = Ret true w' ∧
    records w' !! id = None ∧
    DeleteResponse id ∈ trace w' ∧
    (workdir_of cfg r ∈ dirs w → Rmtree (workdir_of cfg r) ∈ trace w') ∧
    (workdir_of cfg r ∉ faulty w → workdir_of cfg r ∉ dirs w').
Proof.
  intros Hkeyed Hr Hunk. unfold unknown_status in Hunk.
  split; [unfold STATUS_getitem; by rewrite Hunk|].
  assert (Hnf : in_flight r = false) by (unfold in_flight; by rewrite Hunk).
  assert (Hid : uuid r = id) by (by apply Hkeyed).
  exists (deleted cfg r w). rewrite delete_results_eq, Hr, Hnf.
  split; [done|]. split; [|split; [|split]].
  - rewrite deleted_records, Hid. apply lookup_delete_eq.
  - unfold deleted. rewrite Hid. repeat case_bool_decide; simpl; set_solver.
  - intros Hd. unfold deleted. rewrite (bool_decide_eq_true_2 _ Hd).
    case_bool_decide; simpl; set_solver.
  - intros Hok Hin. apply deleted_dirs in Hin as [_ Hin]. by apply Hok, Hin.
Qed.

End DeleteResults.

(** ** The scheduler *)

Ltac unfold_execute :=
  unfold execute, pool_apply_async, asyncio_ensure_future, do_execute_async,
    _run_process, memory_logger, call_handler, os_chdir, update_status,
    logstore_log_request in *;
  unfold_monad.

Section Scheduler.
Context `{E : StatusEnum}.

(** C3.  In synchronous mode a pool timeout marks the record failed with the
    message "Timeout Error" (the last thing the call does to the store) and
    the call raises [NoApplicableCode("Execute Timeout", code=424)]; a pool
    that does not break raises that error for a timeout only, so it tells a
    timeout from a process error. *)
Theorem execute_sync_timeout (req : WPSRequest) (resp : WPSResponse) (w : World)
    (started : bool) :
  sync_mode resp →
  let res := execute (TimesOut started) req resp w in
  (∃ w', res = Raise (NoApplicableCode "Execute Timeout" 424) w') ∧
  marked_failed (resp_uuid resp) "Timeout Error" (world_of res) ∧
  head (trace (world_of res))
    = Some (UpdateStatus (resp_uuid resp) "Timeout Error" None (Some ERROR_STATUS)) ∧
  (∀ pool w',
     (∀ e, pool ≠ Breaks e) →
     execute pool req resp w = Raise (NoApplicableCode "Execute Timeout" 424) w' →
     ∃ b, pool = TimesOut b).
Proof.
  intros Hs res. subst res. unfold sync_mode in Hs. apply Z.eqb_neq in Hs.
  split; [|split; [|split]].
  - unfold_execute. simpl. rewrite Hs. destruct started; simpl; eauto.
  - unfold_execute. simpl. rewrite Hs. unfold marked_failed.
    destruct started; simpl; rewrite ?lookup_alter_eq, ?lookup_insert_eq; simpl; eauto.
  - unfold_execute. simpl. rewrite Hs. by destruct started.
  - intros pool w' Hnb. destruct pool as [|b| |e]; [| by eauto | |by destruct (Hnb e)].
    + unfold_execute. simpl. rewrite Hs. simpl. done.
    + unfold_execute. simpl. rewrite Hs.
      destruct (handler (process resp)) as [|e]; simpl;
        case_bool_decide; simpl; try done.
      all: destruct e; simpl; done.
Qed.

(** C5.  In synchronous mode a submission the pool rejects as saturated
    raises [NoApplicableCode("Server busy, please retry later", code=509)];
    the call made no status update: the store holds what [log_request] wrote,
    and the call did nothing but file the request and submit it.  A pool that
    does not break raises that error for a saturated pool only. *)
Theorem execute_sync_saturated (req : WPSRequest) (resp : WPSResponse) (w : World) :
  sync_mode resp →
  let res := execute Saturated req resp w in
  let id := resp_uuid resp in
  (∃ w', res = Raise (NoApplicableCode "Server busy, please retry later" 509) w') ∧
  records (world_of res) = <[id := accepted_record id req]> (records w) ∧
  records (world_of res) = records (world_of (logstore_log_request id req w)) ∧
  dirs (world_of res) = dirs w ∧
  trace (world_of res) = [ApplyAsync id (req_timeout req); LogRequest id] ++ trace w ∧
  (∀ pool w',
     (∀ e, pool ≠ Breaks e) →
     execute pool req resp w
       = Raise (NoApplicableCode "Server busy, please retry later" 509) w' →
     pool = Saturated).
Proof.
  intros Hs res id. subst res id. unfold sync_mode in Hs. apply Z.eqb_neq in Hs.
  repeat split.
  - unfold_execute. simpl. rewrite Hs. simpl. eauto.
  - unfold_execute. simpl. by rewrite Hs.
  - unfold_execute. simpl. by rewrite Hs.
  - unfold_execute. simpl. by rewrite Hs.
  - unfold_execute. simpl. by rewrite Hs.
  - intros pool w' Hnb. destruct pool as [|b| |e]; [done| | |by destruct (Hnb e)].
    + unfold_execute. simpl. rewrite Hs. by destruct b.
    + unfold_execute. simpl. rewrite Hs.
      destruct (handler (process resp)) as [|e]; simpl;
        case_bool_decide; simpl; try done.
      all: destruct e; simpl; done.
Qed.

(** The events of a call in store-and-update mode: the request is filed, the
    unit is submitted, the detached task is scheduled, and the status is
    updated with "Task accepted". *)
Lemma execute_async_trace (pool : pool_behaviour) (req : WPSRequest)
    (resp : WPSResponse) (w : World) :
  async_mode resp →
  let id := resp_uuid resp in
  trace (world_of (execute pool req resp w))
  = [UpdateStatus id "Task accepted" None None; EnsureFuture id;
     ApplyAsync id (req_timeout req); LogRequest id] ++ trace w.
Proof.
  intros Ha id. unfold async_mode in Ha. apply Z.eqb_eq in Ha.
  unfold_execute. simpl. by rewrite Ha.
Qed.

(** C8.  Whatever the mode and whatever the pool does, [execute] writes the
    accepted record and then submits the unit.  The call is three steps in a
    row: [log_request] files the record of the job, with the status
    [ACCEPTED_STATUS], over whatever the store held under the id; the unit is
    submitted to the pool in the world that write left, so the record is in
    the store at the submission, and the submission does not touch the
    store; the rest of the call starts from there.  The events of the call
    begin with the write followed at once by the submission, neither is
    repeated later, and when the call is over the store still holds a record
    under the id with the identity, timeout, expiration and pin the write
    gave it: what follows the submission only updates it.  (In
    store-and-update mode the status update "Task accepted" is such an
    update, see [execute_async_trace].) *)
Theorem execute_accepts_before_submitting (pool : pool_behaviour)
    (req : WPSRequest) (resp : WPSResponse) (w : World) :
  let id := resp_uuid resp in
  let resp' := set_store (value (resp_status resp) >=? value STORE_STATUS) resp in
  let unit_of_work := _run_process (handler (process resp)) req resp' in
  ∃ (w1 w2 : World) (apply_future : Future),
    logstore_log_request id req w = Ret tt w1 ∧
    records w1 = <[id := accepted_record id req]> (records w) ∧
    status (accepted_record id req) = name ACCEPTED_STATUS ∧
    trace w1 = LogRequest id :: trace w ∧
    pool_apply_async pool unit_of_work resp' (req_timeout req) w1
      = Ret apply_future w2 ∧
    records w2 = records w1 ∧
    records w2 !! id = Some (accepted_record id req) ∧
    trace w2 = ApplyAsync id (req_timeout req) :: trace w1 ∧
    execute pool req resp w = await_or_detach resp' apply_future w2 ∧
    (∃ later,
       trace (world_of (execute pool req resp w))
         = later ++ [ApplyAsync id (req_timeout req); LogRequest id] ++ trace w ∧
       (LogRequest id ∉ later) ∧
       (ApplyAsync id (req_timeout req) ∉ later)) ∧
    (∃ r,
       records (world_of (execute pool req resp w)) !! id = Some r ∧
       uuid r = id ∧
       timeout r = timeout (accepted_record id req) ∧
       expiration r = expiration (accepted_record id req) ∧
       pinned r = pinned (accepted_record id req)).
Proof.
  intros id resp' unit_of_work. subst id resp' unit_of_work.
  eexists _, _, _.
  split; [reflexivity|]. split; [reflexivity|]. split; [reflexivity|].
  split; [reflexivity|]. split; [reflexivity|]. split; [reflexivity|].
  split; [apply lookup_insert_eq|]. split; [reflexivity|]. split; [reflexivity|].
  split.
  - unfold_execute. simpl.
    destruct (value (resp_status resp) =? value STORE_AND_UPDATE_STATUS); simpl.
    + eexists [_; _]. split; [done|]. split; set_solver.
    + destruct pool as [|b| |e]; simpl.
      * exists []. split; [done|]. split; set_solver.
      * destruct b; simpl.
        -- eexists [_; _]. split; [done|]. split; set_solver.
        -- eexists [_]. split; [done|]. split; set_solver.
      * destruct (handler (process resp)) as [|e]; simpl; case_bool_decide; simpl.
        -- eexists [_; _; _]. split; [done|]. split; set_solver.
        -- eexists [_]. split; [done|]. split; set_solver.
        -- destruct e; simpl; eexists [_; _; _]; (split; [done|]); split; set_solver.
        -- destruct e; simpl; eexists [_]; (split; [done|]); split; set_solver.
      * destruct e; simpl; try (exists []; split; [done|]; split; set_solver).
        -- eexists [_]. split; [done|]. split; set_solver.
        -- destruct (is_ProcessException e); simpl; exists []; (split; [done|]);
             split; set_solver.
  - unfold_execute. simpl.
    destruct (value (resp_status resp) =? value STORE_AND_UPDATE_STATUS); simpl.
    { rewrite lookup_alter_eq, lookup_insert_eq. simpl. eauto 10. }
    destruct pool as [|b| |e]; simpl.
    + rewrite lookup_insert_eq. eauto 10.
    + destruct b; simpl; rewrite ?lookup_alter_eq, lookup_insert_eq; simpl; eauto 10.
    + destruct (handler (process resp)) as [|e]; simpl; case_bool_decide; simpl;
        try destruct e; simpl;
        rewrite ?lookup_alter_eq, lookup_insert_eq; simpl; eauto 10.
    + destruct e; simpl; try destruct (is_ProcessException _); simpl;
        rewrite ?lookup_alter_eq, lookup_insert_eq; simpl; eauto 10.
Qed.

(** The detached coroutine returns whatever its future does, and records
    the failure it swallowed. *)
Lemma do_execute_async_spec (resp : WPSResponse) (fut : Future) (w : World) :
  returned (do_execute_async resp fut w) ∧
  (∀ e w1, fut w = Raise e w1 → is_Some (records w1 !! resp_uuid resp) →
     marked_failed (resp_uuid resp) (failure_message e)
       (world_of (do_execute_async resp fut w))).
Proof.
  unfold do_execute_async, update_status. unfold_monad.
  destruct (fut w) as [a w1|e w1]; [split; [done|]; intros; simplify_eq|].
  split; [by destruct e|].
  intros e' w1' [= <- <-] [r Hr]. unfold marked_failed.
  destruct e; simpl; rewrite lookup_alter_eq, Hr; simpl; eauto.
Qed.

(** C4.  In store-and-update mode [execute] returns the acknowledgement
    document for every behaviour of the pool, and hands the event loop a
    detached task that never raises: whatever exception its future raises
    (timeout, saturated pool, or anything else) the task marks the record
    failed with the matching message and returns. *)
Theorem detached_task_swallows_failures (pool : pool_behaviour)
    (req : WPSRequest) (resp : WPSResponse) (w : World) :
  async_mode resp →
  let resp' := set_store (value (resp_status resp) >=? value STORE_STATUS) resp in
  let id := resp_uuid resp in
  ∃ w1 fut,
    execute pool req resp w
      = Ret (document resp, Some (do_execute_async resp' fut)) w1 ∧
    is_Some (records w1 !! id) ∧
    (pool = Saturated → ∀ w2, fut w2 = Raise MaxRequestsExceeded w2) ∧
    (∀ b, pool = TimesOut b →
       ∀ w2, ∃ w3, fut w2 = Raise TimeoutError w3 ∧
                   (is_Some (records w2 !! id) → is_Some (records w3 !! id))) ∧
    (∀ e, pool = Breaks e → ∀ w2, fut w2 = Raise e w2) ∧
    ∀ w2,
      returned (do_execute_async resp' fut w2) ∧
      run_detached (do_execute_async resp' fut) w2
        = world_of (do_execute_async resp' fut w2) ∧
      (∀ e w3, fut w2 = Raise e w3 → is_Some (records w3 !! id) →
         marked_failed id (failure_message e)
           (run_detached (do_execute_async resp' fut) w2)).
Proof.
  intros Ha resp' id. unfold async_mode in Ha. apply Z.eqb_eq in Ha.
  unfold execute, pool_apply_async, asyncio_ensure_future, logstore_log_request,
    update_status.
  unfold_monad. simpl. rewrite Ha. simpl.
  eexists _, _. split; [reflexivity|].
  split; [|split; [|split; [|split]]].
  - simpl. rewrite lookup_alter_eq, lookup_insert_eq. by eexists.
  - by intros ->.
  - intros b ->. intros w2. destruct b; simpl.
    + eexists. split; [done|]. simpl. rewrite lookup_alter_eq.
      intros [r Hr]. subst id. rewrite Hr. by eexists.
    + by eexists.
  - by intros e ->.
  - intros w2. unfold run_detached.
    match goal with
    | |- context [do_execute_async ?r ?f w2] =>
        pose proof (do_execute_async_spec r f w2) as [H1 H2]
    end.
    split; [exact H1|]. split; [done|]. exact H2.
Qed.

(** C6 (as the code has it).  In synchronous mode, when an exception [e]
    escapes the handler, the worker marks the record failed, with the
    handler's own message for a process exception and with "Internal error"
    otherwise; the call then raises [NoApplicableCode("Process Error",
    code=424)] for a process exception, and otherwise re-raises the pool's
    [RequestBackendError], which carries [e]. *)
Theorem execute_sync_worker_failure (req : WPSRequest) (resp : WPSResponse)
    (w : World) (e : exn) :
  sync_mode resp →
  handler (process resp) = Fails e →
  proc_workdir (process resp) ∈ dirs w →
  let res := execute Completes req resp w in
  let id := resp_uuid resp in
  (is_ProcessException e = true →
     (∃ w', res = Raise (NoApplicableCode "Process Error" 424) w') ∧
     marked_failed id (exn_str e) (world_of res)) ∧
  (is_ProcessException e = false →
     (∃ w', res = Raise (RequestBackendError e) w') ∧
     marked_failed id "Internal error" (world_of res)).
Proof.
  intros Hs Hh Hd res id. subst res id.
  unfold sync_mode in Hs. apply Z.eqb_neq in Hs.
  unfold_execute. simpl. rewrite Hs, Hh. simpl.
  rewrite bool_decide_eq_true_2 by done. simpl. unfold marked_failed.
  split; intros He; destruct e; simpl in *; try done.
  all: rewrite ?lookup_alter_eq, ?lookup_insert_eq; simpl.
  all: split; [by eexists|by eexists].
Qed.

End Scheduler.

(** ** The process cache *)

Section CacheFacts.

Implicit Types (l : list (cache_key * WPSProcess)) (k : cache_key) (c : lrucache).

Lemma assoc_elem_of k v l : assoc k l = Some v → (k, v) ∈ l.
Proof.
  induction l as [|[k' v'] l IH]; simpl; [done|].
  case_decide; intros Hv; simplify_eq; set_solver.
Qed.

Lemma assoc_app_l k l1 l2 :
  is_Some (assoc k l1) → assoc k (l1 ++ l2) = assoc k l1.
Proof.
  induction l1 as [|[k' v'] l1 IH]; simpl; [by intros [? ?]|].
  case_decide; [done|]. apply IH.
Qed.

Lemma assoc_remove_key_ne k k' l :
  k' ≠ k → assoc k' (remove_key k l) = assoc k' l.
Proof.
  intros Hne. induction l as [|[k0 v0] l IH]; simpl; [done|].
  repeat (case_decide; simpl); simplify_eq; done.
Qed.

Lemma remove_key_subseteq k l : remove_key k l ⊆ l.
Proof.
  induction l as [|[k0 v0] l IH]; simpl; [done|].
  case_decide; set_solver.
Qed.

Lemma remove_key_length k l : (length (remove_key k l) ≤ length l)%nat.
Proof.
  induction l as [|[k0 v0] l IH]; simpl; [done|].
  case_decide; simpl; lia.
Qed.

Lemma remove_key_app k l1 l2 :
  remove_key k (l1 ++ l2) = remove_key k l1 ++ remove_key k l2.
Proof.
  induction l1 as [|[k0 v0] l1 IH]; simpl; [done|].
  case_decide; simpl; by rewrite IH.
Qed.

(** Reading an entry moves it to the front and changes no binding. *)
Lemma lru_getitem_assoc k c v c' k' :
  lru_getitem k c = Some (v, c') →
  assoc k (entries c) = Some v ∧ assoc k' (entries c') = assoc k' (entries c).
Proof.
  unfold lru_getitem. destruct (assoc k (entries c)) as [v0|] eqn:Hk; [|done].
  intros [= <- <-]. split; [done|]. simpl.
  case_decide; [by subst|]. by apply assoc_remove_key_ne.
Qed.
End CacheFacts.

Section CacheFill.
Implicit Types (l : list (cache_key * WPSProcess)) (k : cache_key) (c : lrucache).
Variable uri : string.


Lemma fresh_front_nil c : fresh_front uri [] c.
Proof.
  exists [], (entries c). repeat split; simpl; try done; set_solver.
Qed.

Lemma fresh_front_put seen c p :
  fresh_front uri seen c →
  (length seen < capacity c)%nat →
  fresh_front uri (seen ++ [p]) (cache_put uri c p).
Proof.
  intros (front & rest & Hc & Hlen & Hmem & Hall) Hcap.
  set (k := (uri, identifier p)).
  exists ((k, p) :: remove_key k front),
         (take (capacity c - S (length (remove_key k front))) (remove_key k rest)).
  pose proof (remove_key_length k front) as Hrl.
  split; [|split; [|split]].
  - unfold cache_put, lru_setitem. simpl. fold k. rewrite Hc, remove_key_app.
    rewrite (app_comm_cons _ _ (k, p)).
    rewrite take_app, take_ge by (simpl; lia). done.
  - rewrite length_app. simpl. lia.
  - intros k' v [Hin|Hin]%elem_of_cons.
    + simplify_eq. split; [set_solver|done].
    + apply remove_key_subseteq, Hmem in Hin as [? ?]. split; [set_solver|done].
  - intros q [Hq| ->%list_elem_of_singleton]%elem_of_app; simpl.
    + case_decide; [by eexists|].
      rewrite assoc_remove_key_ne by done. by apply Hall.
    + fold k. case_decide; [by eexists|done].
Qed.

Lemma put_capacity c p : capacity (cache_put uri c p) = capacity c.
Proof. done. Qed.

Lemma fresh_front_foldl ps seen c :
  fresh_front uri seen c →
  (length (seen ++ ps) ≤ capacity c)%nat →
  fresh_front uri (seen ++ ps) (foldl (cache_put uri) c ps).
Proof.
  revert seen c. induction ps as [|p ps IH]; intros seen c Hinv Hcap.
  - by rewrite app_nil_r.
  - simpl. rewrite cons_middle, app_assoc. apply IH.
    + apply fresh_front_put; [done|]. rewrite length_app in Hcap. simpl in Hcap. lia.
    + rewrite put_capacity, <- app_assoc. done.
Qed.

(** After putting a batch that fits the capacity, every definition of the
    batch is found under its key, bound to a definition of the batch with the
    same identifier. *)
Lemma foldl_put_cached ps c p :
  (length ps ≤ capacity c)%nat →
  p ∈ ps →
  ∃ p', assoc (uri, identifier p) (entries (foldl (cache_put uri) c ps)) = Some p' ∧
        p' ∈ ps ∧ identifier p' = identifier p.
Proof.
  intros Hcap Hp.
  destruct (fresh_front_foldl ps [] c (fresh_front_nil c) Hcap)
    as (front & rest & Hc & _ & Hmem & Hall).
  simpl in *. destruct (Hall p Hp) as [p' Hp'].
  exists p'. rewrite Hc, assoc_app_l, Hp' by (by eexists).
  apply assoc_elem_of, Hmem in Hp' as [? ?]. split; [done|]. split; [done|].
  congruence.
Qed.
End CacheFill.

Section GetProcessesFacts.
Implicit Types (c : lrucache) (dict : gmap string WPSProcess).

Lemma lookup_processes_known dict ids :
  (∀ i, i ∈ ids → is_Some (dict !! i)) →
  ∃ ps, lookup_processes dict ids = Returned ps ∧
        Forall2 (λ i p, dict !! i = Some p) ids ps.
Proof.
  induction ids as [|i ids IH]; intros Hall; simpl.
  - by exists [].
  - destruct (Hall i) as [p Hp]; [set_solver|]. rewrite Hp.
    destruct IH as (ps & -> & Hps); [set_solver|].
    exists (p :: ps). split; [done|]. by constructor.
Qed.

Lemma existsb_test_false uri c ids ps :
  Forall2 (λ i p, identifier p = i) ids ps →
  existsb (λ p, negb (lru_contains (uri, identifier p) c)) ps = false ↔
  all_cached uri ids c.
Proof.
  unfold all_cached, lru_contains.
  induction 1 as [|i p ids ps Hi _ IH]; simpl.
  - split; [set_solver|done].
  - rewrite orb_false_iff, IH, negb_false_iff, bool_decide_eq_true, Hi.
    split.
    + intros [? ?] j [->|?]%elem_of_cons; eauto.
    + intros H. split; [apply H|intros j ?; apply H]; set_solver.
Qed.

Lemma fetch_cached_all uri ps c :
  (∀ p, p ∈ ps → is_Some (assoc (uri, identifier p) (entries c))) →
  ∃ defs c',
    fetch_cached uri ps c = (Returned defs, c') ∧
    Forall2 (λ p d, assoc (uri, identifier p) (entries c) = Some d) ps defs ∧
    ∀ k, assoc k (entries c') = assoc k (entries c).
Proof.
  revert c. induction ps as [|p ps IH]; intros c Hall; simpl.
  - exists [], c. done.
  - destruct (Hall p) as [v0 Hv0]; [set_solver|].
    destruct (lru_getitem (uri, identifier p) c) as [[v c1]|] eqn:Hg; cycle 1.
    { unfold lru_getitem in Hg. by rewrite Hv0 in Hg. }
    assert (Hv : assoc (uri, identifier p) (entries c) = Some v).
    { by apply (lru_getitem_assoc _ _ _ _ (uri, identifier p) Hg). }
    assert (Hsame : ∀ k, assoc k (entries c1) = assoc k (entries c)).
    { intros k. by apply (lru_getitem_assoc _ _ _ _ k Hg). }
    destruct (IH c1) as (defs & c' & -> & Hdefs & Hc').
    { intros q Hq. rewrite Hsame. apply Hall. set_solver. }
    exists (v :: defs), c'. split; [done|]. split.
    + constructor; [done|].
      eapply Forall2_impl; [exact Hdefs|]. intros q d Hqd. simpl in *.
      by rewrite <- Hsame.
    + intros k. by rewrite Hc', Hsame.
Qed.
End GetProcessesFacts.

Section GetProcesses.

(** C7.  [get_processes] with a map, on an executor whose factory has QGIS
    enabled and which knows every requested identifier: when every requested
    identifier is cached for the map, the cached definitions come back and no
    binding of the cache changes; when at least one is missing, the factory
    specialises all requested identifiers in one batch, that batch comes
    back, and every definition of the batch is put in the cache under the map
    and its identifier, where it is found afterwards provided the batch fits
    the capacity of the cache. *)
Theorem get_processes_cache (self : ProcessingExecutor) (identifiers : list string)
    (uri : string) :
  qgis_enabled (_factory self) = true →
  processes_keyed self →
  (∀ i, i ∈ identifiers → is_Some (processes self !! i)) →
  let cache := _context_processes self in
  let batch := create_contextualized_processes (_factory self) identifiers uri in
  let out := get_processes self identifiers (Some uri) in
  (all_cached uri identifiers cache →
     ∃ defs,
       out.1 = Returned defs ∧
       Forall2 (λ i d, assoc (uri, i) (entries cache) = Some d) identifiers defs ∧
       ∀ k, assoc k (entries (_context_processes out.2)) = assoc k (entries cache)) ∧
  (¬ all_cached uri identifiers cache →
     out.1 = Returned batch ∧
     _context_processes out.2 = foldl (cache_put uri) cache batch ∧
     ((length batch ≤ capacity cache)%nat →
      ∀ p, p ∈ batch →
        ∃ p', assoc (uri, identifier p) (entries (_context_processes out.2)) = Some p' ∧
              p' ∈ batch ∧ identifier p' = identifier p)).
Proof.
  intros Hq Hkeyed Hknown cache batch out.
  destruct (lookup_processes_known _ _ Hknown) as (ps & Hps & Hlook).
  assert (Hids : Forall2 (λ i p, identifier p = i) identifiers ps).
  { eapply Forall2_impl; [exact Hlook|]. intros i p Hp. by apply Hkeyed in Hp. }
  pose proof (existsb_test_false uri cache identifiers ps Hids) as Htest.
  subst out. unfold get_processes. rewrite Hps, Hq. fold cache.
  destruct (existsb _ ps) eqn:Hex.
  - split.
    + intros Hall. apply Htest in Hall. done.
    + intros _. simpl. split; [done|]. split; [done|].
      intros Hcap p Hp. by apply foldl_put_cached.
  - split.
    + intros Hall.
      destruct (fetch_cached_all uri ps cache) as (defs & c' & Hf & Hdefs & Hc').
      { intros p Hp. apply list_elem_of_lookup in Hp as [n Hn].
        destruct (Forall2_lookup_r _ _ _ _ _ Hids Hn) as (i & Hi & <-).
        apply Hall. by eapply list_elem_of_lookup_2. }
      rewrite Hf. simpl. exists defs. split; [done|]. split; [|done].
      clear -Hids Hdefs. revert defs Hdefs.
      induction Hids as [|i p ids ps Hi _ IH]; intros defs Hdefs.
      * inversion Hdefs. constructor.
      * inversion Hdefs as [|? d ? defs' Hd Hrest]; subst. constructor; [done|].
        by apply IH.
    + intros Hnot. destruct Hnot. by apply Htest.
Qed.
End GetProcesses.

(** * Beyond the claims *)

(** ** The reaper over time *)

Section ReaperOverTime.
Context `{E : StatusEnum}.
Variable cfg : Config.

Lemma reaped_clock r w : clock (reaped cfg r w) = clock w.
Proof. unfold reaped. by repeat case_bool_decide. Qed.

Lemma reaped_trace r w : ∃ later, trace (reaped cfg r w) = later ++ trace w.
Proof.
  unfold reaped. repeat case_bool_decide; simpl.
  - by eexists [_; _; _; _].
  - by eexists [_; _; _].
  - by eexists [_; _].
Qed.

Lemma sweep_clock now l w : clock (sweep cfg now l w) = clock w.
Proof.
  revert w. induction l as [|kr l IH]; intros w; [done|].
  rewrite sweep_cons, IH. destruct (reaps cfg now kr.2); [apply reaped_clock|done].
Qed.

Lemma sweep_trace now l w : ∃ later, trace (sweep cfg now l w) = later ++ trace w.
Proof.
  revert w. induction l as [|kr l IH]; intros w; [by exists []|].
  rewrite sweep_cons. destruct (IH (if reaps cfg now kr.2 then reaped cfg kr.2 w else w))
    as [later ->].
  destruct (reaps cfg now kr.2); [|by eexists].
  destruct (reaped_trace kr.2 w) as [later' ->]. exists (later ++ later').
  by rewrite app_assoc.
Qed.

(** A sweep that reaps nothing leaves the world as it is. *)
Lemma sweep_nothing now l w :
  (∀ kr, kr ∈ l → reaps cfg now kr.2 = false) →
  sweep cfg now l w = w.
Proof.
  revert w. induction l as [|kr l IH]; intros w Hl; [done|].
  rewrite sweep_cons, Hl by set_solver. apply IH. set_solver.
Qed.

(** The verdict only grows with time. *)
Lemma reaps_mono now now' r :
  now ≤ now' → reaps cfg now r = true → reaps cfg now' r = true.
Proof.
  intros Hle. unfold reaps.
  destruct (default false (pinned r)); simpl; [done|].
  destruct (timestamp r) as [ts|]; [|done].
  destruct (in_flight r); [destruct (timeout r) as [t|]; [|done]|];
    rewrite !Z.geb_le; lia.
Qed.

(** X1.  A scan only takes away: every record it leaves was there before and
    is unchanged, the directories it leaves were there before, the clock and
    the set of failing directories are untouched, and the calls already
    traced stay traced. *)
Theorem clean_processes_only_removes (w : World) :
  let w' := world_of (_clean_processes cfg w) in
  returned (_clean_processes cfg w) ∧
  (∀ k r, records w' !! k = Some r → records w !! k = Some r) ∧
  dirs w' ⊆ dirs w ∧
  clock w' = clock w ∧
  faulty w' = faulty w ∧
  ∃ later, trace w' = later ++ trace w.
Proof.
  intros w'. subst w'. rewrite clean_processes_eq. simpl.
  split; [exact I|]. split; [|split; [|split; [|split]]].
  - intros k r. rewrite sweep_records. by destruct (existsb _ _).
  - intros p Hp. by apply sweep_dirs in Hp as [? _].
  - apply sweep_clock.
  - apply sweep_faulty.
  - apply sweep_trace.
Qed.

(** A keyed store stays keyed through a sweep. *)
Lemma sweep_keyed now l w : store_keyed w → store_keyed (sweep cfg now l w).
Proof.
  intros Hk k r. rewrite sweep_records. destruct (existsb _ _); [done|]. apply Hk.
Qed.

(** X2.  Scanning twice at the same time is scanning once: the second scan
    of a keyed store finds nothing to reap, logs nothing and changes nothing.
    In particular a working directory whose removal failed is not tried
    again: its record is gone. *)
Theorem clean_processes_idempotent (w : World) :
  store_keyed w →
  let w' := world_of (_clean_processes cfg w) in
  _clean_processes cfg w' = Ret tt w'.
Proof.
  intros Hkeyed w'. subst w'. rewrite clean_processes_eq. unfold world_of.
  rewrite clean_processes_eq, sweep_clock. f_equal.
  apply sweep_nothing. intros [k r] Hin.
  apply elem_of_map_to_list in Hin. simpl.
  rewrite sweep_records in Hin.
  destruct (existsb _ _) eqn:Hex; [done|].
  rewrite (snapshot_reaps cfg (clock w) w k r Hkeyed Hin) in Hex. done.
Qed.

(** One turn of the cleanup loop on a keyed store: the clock moves on and the
    store is swept at the new time. *)
Lemma cleanup_turn_eq interval w :
  cleanup_turn cfg interval w
  = Ret tt (let w1 := set_clock (λ t, t + Z.max 0 interval) w in
            sweep cfg (clock w1) (map_to_list (records w1)) w1).
Proof.
  unfold cleanup_turn, asyncio_sleep. unfold_monad.
  by rewrite clean_processes_eq.
Qed.

Lemma cleanup_turn_lookup interval w k :
  store_keyed w →
  records (world_of (cleanup_turn cfg interval w)) !! k =
  match records w !! k with
  | Some r => if reaps cfg (clock w + Z.max 0 interval) r then None else Some r
  | None => None
  end.
Proof.
  intros Hkeyed. rewrite cleanup_turn_eq. simpl.
  set (w1 := set_clock _ w).
  assert (Hk1 : store_keyed w1) by done.
  destruct (records w !! k) as [r|] eqn:Hk.
  - by rewrite (scan_lookup cfg _ w1 k r Hk1 Hk).
  - by rewrite (snapshot_absent cfg _ w1 k Hk).
Qed.

Lemma cleanup_turn_keyed interval w :
  store_keyed w → store_keyed (world_of (cleanup_turn cfg interval w)).
Proof.
  intros Hkeyed. rewrite cleanup_turn_eq. simpl. by apply sweep_keyed.
Qed.

Lemma cleanup_turn_clock interval w :
  clock (world_of (cleanup_turn cfg interval w)) = clock w + Z.max 0 interval.
Proof. rewrite cleanup_turn_eq. simpl. by rewrite sweep_clock. Qed.

Lemma run_cleanup_S interval n w :
  _run_cleanup cfg interval (S n) w
  = _run_cleanup cfg interval n (world_of (cleanup_turn cfg interval w)).
Proof.
  simpl. unfold_monad. by rewrite cleanup_turn_eq.
Qed.

Lemma run_cleanup_returned interval n w :
  returned (_run_cleanup cfg interval n w).
Proof.
  revert w. induction n as [|n IH]; intros w; [exact I|].
  rewrite run_cleanup_S. apply IH.
Qed.

(** The store after [n] turns: a record is decided by the verdict at the time
    of the last turn. *)
Lemma run_cleanup_lookup interval n w k :
  store_keyed w →
  records (world_of (_run_cleanup cfg interval (S n) w)) !! k =
  match records w !! k with
  | Some r =>
      if reaps cfg (clock w + Z.of_nat (S n) * Z.max 0 interval) r
      then None else Some r
  | None => None
  end.
Proof.
  revert w. induction n as [|n IH]; intros w Hkeyed.
  - rewrite run_cleanup_S. change (_run_cleanup cfg interval 0) with (@ret unit tt).
    unfold ret at 1. cbn [world_of]. rewrite cleanup_turn_lookup by done.
    destruct (records w !! k); [|done].
    by replace (clock w + Z.of_nat 1 * Z.max 0 interval)
      with (clock w + Z.max 0 interval) by lia.
  - rewrite run_cleanup_S, IH by (by apply cleanup_turn_keyed).
    rewrite cleanup_turn_lookup, cleanup_turn_clock by done.
    destruct (records w !! k) as [r|]; [|done].
    replace (clock w + Z.max 0 interval + Z.of_nat (S n) * Z.max 0 interval)
      with (clock w + Z.of_nat (S (S n)) * Z.max 0 interval) by lia.
    destruct (reaps cfg (clock w + Z.max 0 interval) r) eqn:H1; [|done].
    rewrite (reaps_mono (clock w + Z.max 0 interval)); [done| |done].
    nia.
Qed.

(** X3.  The cleanup loop never raises, and on a keyed store its first turns
    act on a record like one scan at the time of the last of them: after
    [S n] turns the record is gone exactly when, at that time, it is not a
    job that is legitimately still running and the reclaiming rule holds;
    when it is still there it is unchanged. *)
Theorem cleanup_loop_decides_at_last_turn (interval : Z) (n : nat) (w : World)
    (k : string) (r : JobRecord) :
  store_keyed w →
  records w !! k = Some r →
  let res := _run_cleanup cfg interval (S n) w in
  let now := clock w + Z.of_nat (S n) * Z.max 0 interval in
  returned res ∧
  (records (world_of res) !! k = None ↔ ¬ live now r ∧ reclaimable cfg now r) ∧
  (records (world_of res) !! k ≠ None → records (world_of res) !! k = Some r).
Proof.
  intros Hkeyed Hk res now. subst res.
  split; [apply run_cleanup_returned|].
  rewrite run_cleanup_lookup, Hk by done. fold now.
  pose proof (reaps_spec cfg now r) as Hspec.
  destruct (reaps cfg now r).
  - split; [|done]. split; [intros _; by apply Hspec|done].
  - split; [|done]. split; [done|]. intros H. apply Hspec in H. done.
Qed.

(** X4.  A pinned record of a keyed store survives any number of turns of
    the cleanup loop, unchanged, whatever its age. *)
Theorem cleanup_loop_spares_pinned (interval : Z) (n : nat) (w : World)
    (k : string) (r : JobRecord) :
  store_keyed w →
  records w !! k = Some r →
  is_pinned r →
  records (world_of (_run_cleanup cfg interval n w)) !! k = Some r.
Proof.
  intros Hkeyed Hk Hpin. destruct n as [|n]; [done|].
  rewrite run_cleanup_lookup, Hk by done.
  unfold reaps. apply is_pinned_iff in Hpin. by rewrite Hpin.
Qed.





Lemma reaped_logs_fault r w :
  workdir_of cfg r ∈ dirs w →
  workdir_of cfg r ∈ faulty w →
  LogError "Unable to remove directory: %s" [workdir_of cfg r] ∈ trace (reaped cfg r w).
Proof.
  intros Hd Hf. unfold reaped. rewrite !bool_decide_eq_true_2 by done.
  simpl. set_solver.
Qed.

Lemma sweep_logs_fault now l w kr :
  kr ∈ l →
  reaps cfg now kr.2 = true →
  workdir_of cfg kr.2 ∈ dirs w →
  workdir_of cfg kr.2 ∈ faulty w →
  LogError "Unable to remove directory: %s" [workdir_of cfg kr.2]
    ∈ trace (sweep cfg now l w).
Proof.
  revert w. induction l as [|kr0 l IH]; intros w Hin Hr Hd Hf; [by apply elem_of_nil in Hin|].
  rewrite sweep_cons. apply elem_of_cons in Hin as [<-|Hin].
  - rewrite Hr. destruct (sweep_trace now l (reaped cfg kr.2 w)) as [later ->].
    apply elem_of_app. right. by apply reaped_logs_fault.
  - apply IH; [done|done| |].
    + destruct (reaps cfg now kr0.2); [|done]. apply reaped_dirs. by split.
    + destruct (reaps cfg now kr0.2); [|done]. by rewrite reaped_faulty.
Qed.

(** X21.  A working directory that cannot be removed does not hold the reaper
    back: for a record of a keyed store that the scan reaps, whose directory
    exists and makes [rmtree] fail, the scan returns, the record is deleted,
    the failure is logged as an error, and the directory is still there. *)
Theorem reaper_survives_failed_removal (w : World) (k : string) (r : JobRecord) :
  store_keyed w →
  records w !! k = Some r →
  ¬ live (clock w) r → reclaimable cfg (clock w) r →
  workdir_of cfg r ∈ dirs w →
  workdir_of cfg r ∈ faulty w →
  let res := _clean_processes cfg w in
  returned res ∧
  records (world_of res) !! k = None ∧
  workdir_of cfg r ∈ dirs (world_of res) ∧
  LogError "Unable to remove directory: %s" [workdir_of cfg r] ∈ trace (world_of res).
Proof.
  intros Hkeyed Hk Hnl Hrec Hd Hf res. subst res.
  assert (Hr : reaps cfg (clock w) r = true) by (by apply reaps_spec).
  rewrite clean_processes_eq. unfold world_of, returned.
  split; [done|]. split; [|split].
  - by rewrite (scan_lookup cfg _ w k r Hkeyed Hk), Hr.
  - apply sweep_dirs. by split.
  - apply (sweep_logs_fault _ _ w (k, r)); [|done..].
    by apply elem_of_map_to_list.
Qed.

End ReaperOverTime.

(** ** More on deleting a job *)

Section DeleteMore.
Context `{E : StatusEnum}.
Variable cfg : Config.


(** X6.  The DELETE handler never lets an exception out: whatever id it is
    given and whatever the store holds, it answers 200, 400, 404 or 409; any
    answer but 200 leaves the world exactly as it was, and after a 200 the
    record that was found is no longer in the store. *)
Theorem StatusHandler_delete_total (id : option string) (w : World) :
  ∃ reply w',
    StatusHandler_delete cfg id w = Ret reply w' ∧
    http_status reply ∈ [200; 400; 404; 409] ∧
    (http_status reply ≠ 200 → w' = w) ∧
    (http_status reply = 200 →
       ∃ i r, id = Some i ∧ records w !! i = Some r ∧ records w' !! uuid r = None).
Proof.
  destruct id as [i|]; cycle 1.
  { eexists _, w. split; [done|]. simpl. split; [set_solver|]. split; [done|]. lia. }
  rewrite StatusHandler_delete_eq, delete_results_eq.
  destruct (records w !! i) as [r|] eqn:Hr.
  - destruct (in_flight r).
    + eexists _, w. split; [done|]. simpl. split; [set_solver|]. split; [done|]. lia.
    + eexists _, _. split; [done|]. cbn [http_status].
      split; [set_solver|]. split; [done|].
      intros _. exists i, r. split; [done|]. split; [done|].
      rewrite deleted_records. apply lookup_delete_eq.
  - eexists _, w. split; [done|]. simpl. split; [set_solver|]. split; [done|]. lia.
Qed.

End DeleteMore.

(** ** More on resolving processes *)

Section ResolveMore.
Implicit Types (self : ProcessingExecutor) (dict : gmap string WPSProcess).

Lemma lookup_processes_unknown dict known i rest :
  (∀ j, j ∈ known → is_Some (dict !! j)) →
  dict !! i = None →
  lookup_processes dict (known ++ i :: rest) = Raised (KeyError i).
Proof.
  intros Hknown Hi. induction known as [|j known IH]; simpl.
  - by rewrite Hi.
  - destruct (Hknown j) as [p ->]; [set_solver|].
    rewrite IH; [done|]. intros j' ?. apply Hknown. set_solver.
Qed.

(** [repr] leaves a printable character that is neither the quote nor the
    backslash as it is. *)
Lemma repr_char_plain c :
  plain_char c = true →
  repr_char "'" c = String c "" ∧ Ascii.eqb "'" c = false.
Proof.
  destruct c as [[] [] [] [] [] [] [] []]; vm_compute; intros H;
    first [discriminate H | split; reflexivity].
Qed.

Lemma repr_chars_plain s :
  plain_text s = true →
  repr_chars "'" s = s ∧ has_char "'" s = false.
Proof.
  unfold plain_text, has_char. induction s as [|c s IH]; [done|].
  cbn [list_ascii_of_string forallb existsb repr_chars].
  intros [Hc Hs]%andb_true_iff.
  destruct (repr_char_plain c Hc) as [Hr Hq]. destruct (IH Hs) as [Hrs Hh].
  by rewrite Hr, Hq, Hrs, Hh.
Qed.

(** The repr of a plain text is the text in single quotes. *)
Lemma py_repr_plain s : plain_text s = true → py_repr s = "'" +:+ s +:+ "'".
Proof.
  intros Hs. unfold py_repr. destruct (repr_chars_plain s Hs) as [Hrs Hh].
  rewrite Hh. cbn [andb]. by rewrite Hrs.
Qed.

(** X7.  A request that names an identifier the executor does not know raises
    [UnknownProcessError] with the repr of the first such identifier, as
    [str] of the [KeyError] gives it, with or without a map and whatever the
    cache holds, and leaves the executor as it was.  For an identifier of
    printable ASCII characters without a single quote or a backslash the
    message is the identifier in single quotes; other identifiers are
    escaped, or quoted in double quotes, as [repr] does. *)
Theorem get_processes_unknown self (known : list string) (i : string)
    (rest : list string) (map_uri : option string) :
  (∀ j, j ∈ known → is_Some (processes self !! j)) →
  processes self !! i = None →
  is_ascii i = true →
  get_processes self (known ++ i :: rest) map_uri
  = (Raised (UnknownProcessError (py_repr i)), self) ∧
  (plain_text i = true → py_repr i = "'" +:+ i +:+ "'").
Proof.
  intros Hknown Hi _. split; [|apply py_repr_plain].
  unfold get_processes.
  by rewrite (lookup_processes_unknown _ _ _ _ Hknown Hi).
Qed.

(** X8.  Without a map, or when the factory has QGIS disabled, a request for
    known identifiers returns the executor's own definitions in the order of
    the request, and the cache is neither read nor written. *)
Theorem get_processes_plain self (identifiers : list string) (map_uri : option string) :
  map_uri = None ∨ qgis_enabled (_factory self) = false →
  (∀ i, i ∈ identifiers → is_Some (processes self !! i)) →
  ∃ ps,
    get_processes self identifiers map_uri = (Returned ps, self) ∧
    Forall2 (λ i p, processes self !! i = Some p) identifiers ps.
Proof.
  intros Hplain Hknown.
  destruct (lookup_processes_known _ _ Hknown) as (ps & Hps & Hlook).
  exists ps. split; [|done]. unfold get_processes. rewrite Hps.
  destruct map_uri as [uri|]; [|done].
  destruct Hplain as [?| ->]; done.
Qed.

(** A batch whose identifiers are pairwise distinct is cached as it is. *)
Lemma foldl_put_cached_exact uri (ps : list WPSProcess) (c : lrucache) (p : WPSProcess) :
  (length ps ≤ capacity c)%nat →
  NoDup (identifier <$> ps) →
  p ∈ ps →
  assoc (uri, identifier p) (entries (foldl (cache_put uri) c ps)) = Some p.
Proof.
  intros Hcap Hnd Hp.
  destruct (foldl_put_cached uri ps c p Hcap Hp) as (p' & -> & Hp' & Hid).
  f_equal.
  apply list_elem_of_lookup in Hp as [n Hn]. apply list_elem_of_lookup in Hp' as [n' Hn'].
  assert (n' = n).
  { eapply NoDup_lookup; [exact Hnd| |]; rewrite list_lookup_fmap.
    - by rewrite Hn'.
    - rewrite Hn. simpl. by rewrite Hid. }
  subst n'. congruence.
Qed.

(** X9.  Asking twice gives the same answer.  For known, pairwise distinct
    identifiers that fit the capacity of the cache, and a factory that
    answers a request with one definition per identifier, in order, a second
    [get_processes] for the same map finds every identifier cached and
    returns what the first call returned. *)
Theorem get_processes_twice self (identifiers : list string) (uri : string) :
  qgis_enabled (_factory self) = true →
  processes_keyed self →
  (∀ i, i ∈ identifiers → is_Some (processes self !! i)) →
  NoDup identifiers →
  (length identifiers ≤ capacity (_context_processes self))%nat →
  identifier <$> create_contextualized_processes (_factory self) identifiers uri
    = identifiers →
  let first := get_processes self identifiers (Some uri) in
  let second := get_processes first.2 identifiers (Some uri) in
  all_cached uri identifiers (_context_processes first.2) ∧
  second.1 = first.1.
Proof.
  intros Hq Hkeyed Hknown Hnd Hcap Hfaith first second.
  destruct (lookup_processes_known _ _ Hknown) as (ps & Hps & Hlook).
  assert (Hids : Forall2 (λ i p, identifier p = i) identifiers ps).
  { eapply Forall2_impl; [exact Hlook|]. intros i p Hp. by apply Hkeyed in Hp. }
  set (cache := _context_processes self) in *.
  set (batch := create_contextualized_processes (_factory self) identifiers uri) in *.
  (* what the first call returns, and the bindings it leaves *)
  assert (Hfirst : ∃ defs c1,
            first = (Returned defs, set_cache c1 self) ∧
            Forall2 (λ i d, assoc (uri, i) (entries c1) = Some d) identifiers defs).
  { subst first. unfold get_processes. rewrite Hps, Hq. fold cache.
    destruct (existsb _ ps) eqn:Hex.
    - exists batch, (foldl (cache_put uri) cache batch). split; [done|].
      assert (Hlen : (length batch ≤ capacity cache)%nat).
      { rewrite <- (length_fmap identifier), Hfaith. done. }
      assert (Hnd' : NoDup (identifier <$> batch)) by (by rewrite Hfaith).
      rewrite <- Hfaith at 1. apply Forall2_fmap_l, Forall_Forall2_diag, Forall_forall.
      intros p Hp. by apply foldl_put_cached_exact.
    - apply (existsb_test_false uri cache identifiers ps Hids) in Hex.
      destruct (fetch_cached_all uri ps cache) as (defs & c' & Hf & Hdefs & Hc').
      { intros p Hp. apply list_elem_of_lookup in Hp as [n Hn].
        destruct (Forall2_lookup_r _ _ _ _ _ Hids Hn) as (i & Hi & <-).
        apply Hex. by eapply list_elem_of_lookup_2. }
      rewrite Hf. exists defs, c'. split; [done|].
      clear -Hids Hdefs Hc'. revert defs Hdefs.
      induction Hids as [|i p ids ps Hi _ IH]; intros defs Hdefs.
      + inversion Hdefs. constructor.
      + inversion Hdefs as [|? d ? defs' Hd Hrest]; subst. constructor.
        * by rewrite Hc'.
        * by apply IH. }
  destruct Hfirst as (defs & c1 & Hfirst & Hbound).
  assert (Hall : all_cached uri identifiers c1).
  { intros i Hi. apply list_elem_of_lookup in Hi as [n Hn].
    destruct (Forall2_lookup_l _ _ _ _ _ Hbound Hn) as (d & _ & ->). by eexists. }
  subst second. rewrite Hfirst. simpl. split; [done|].
  unfold get_processes. simpl. rewrite Hps, Hq.
  apply (existsb_test_false uri c1 identifiers ps Hids) in Hall as Hex. rewrite Hex.
  destruct (fetch_cached_all uri ps c1) as (defs2 & c2 & Hf & Hdefs2 & _).
  { intros p Hp. apply list_elem_of_lookup in Hp as [n Hn].
    destruct (Forall2_lookup_r _ _ _ _ _ Hids Hn) as (i & Hi & <-).
    apply Hall. by eapply list_elem_of_lookup_2. }
  rewrite Hf. simpl. f_equal.
  clear -Hids Hdefs2 Hbound. revert defs defs2 Hdefs2 Hbound.
  induction Hids as [|i p ids ps Hi _ IH]; intros defs defs2 Hdefs2 Hbound.
  - inversion Hdefs2. inversion Hbound. done.
  - inversion Hdefs2 as [|? d2 ? defs2' Hd2 Hrest2]; subst.
    inversion Hbound as [|? d ? defs' Hd Hrest]; subst.
    f_equal; [congruence|]. by apply IH.
Qed.

End ResolveMore.

(** ** Building and reloading the executor *)

Section BuildReload.
Implicit Types (self : ProcessingExecutor) (ps : list WPSProcess).

Lemma processes_dict_snoc ps p :
  processes_dict (ps ++ [p]) = <[identifier p := p]> (processes_dict ps).
Proof. unfold processes_dict. by rewrite foldl_app. Qed.

Lemma processes_dict_keyed ps :
  map_Forall (λ k p, identifier p = k) (processes_dict ps).
Proof.
  induction ps as [|p ps IH] using rev_ind.
  - apply map_Forall_empty.
  - rewrite processes_dict_snoc. by apply map_Forall_insert_2.
Qed.

Lemma processes_dict_elem ps i p :
  processes_dict ps !! i = Some p → p ∈ ps.
Proof.
  induction ps as [|q ps IH] using rev_ind; [done|].
  rewrite processes_dict_snoc, lookup_insert. case_decide.
  - intros [= ->]. set_solver.
  - intros ?. set_solver.
Qed.

Lemma processes_dict_known ps i :
  is_Some (processes_dict ps !! i) ↔ i ∈ identifier <$> ps.
Proof.
  induction ps as [|q ps IH] using rev_ind.
  - split; [by intros [? ?]|]. set_solver.
  - rewrite processes_dict_snoc, lookup_insert, fmap_app, elem_of_app.
    case_decide as Hq; simpl.
    + split; [|by eexists]. intros _. right. set_solver.
    + rewrite IH. split; [tauto|]. intros [?|?]; [done|]. set_solver.
Qed.

(** Of several processes with one identifier, the last one is kept. *)
Lemma processes_dict_last before p after :
  identifier p ∉ identifier <$> after →
  processes_dict (before ++ p :: after) !! identifier p = Some p.
Proof.
  induction after as [|q after IH] using rev_ind; intros Hnot.
  - rewrite processes_dict_snoc. apply lookup_insert_eq.
  - rewrite app_comm_cons, app_assoc, processes_dict_snoc.
    rewrite fmap_app in Hnot. rewrite lookup_insert_ne by set_solver.
    apply IH. set_solver.
Qed.

(** X10.  The executor that [__init__] builds files every process under its own
    identifier; it knows exactly the identifiers of the processes it was
    given, keeps the last of several processes with one identifier, and
    [list_processes] lists processes it was given, no two of them with the
    same identifier. *)
Theorem ProcessingExecutor_init_keyed (factory : ProcessFactory) ps :
  let self := ProcessingExecutor_init factory ps in
  processes_keyed self ∧
  (∀ i, is_Some (processes self !! i) ↔ i ∈ identifier <$> ps) ∧
  (∀ before p after,
     ps = before ++ p :: after →
     identifier p ∉ identifier <$> after →
     processes self !! identifier p = Some p) ∧
  NoDup (identifier <$> list_processes self) ∧
  (∀ p, p ∈ list_processes self → p ∈ ps) ∧
  (∀ i, i ∈ identifier <$> list_processes self ↔ i ∈ identifier <$> ps).
Proof.
  intros self. subst self. unfold processes_keyed, list_processes. simpl.
  pose proof (processes_dict_keyed ps) as Hkeyed.
  assert (Hfst : identifier <$> (map_to_list (processes_dict ps)).*2
                 = (map_to_list (processes_dict ps)).*1).
  { rewrite <- list_fmap_compose. apply list_fmap_ext.
    intros n [k p] Hn. simpl.
    apply list_elem_of_lookup_2, elem_of_map_to_list in Hn. by apply Hkeyed in Hn. }
  split; [done|]. split; [apply processes_dict_known|].
  split; [intros before p after ->; apply processes_dict_last|].
  split; [rewrite Hfst; apply NoDup_fst_map_to_list|].
  split.
  - intros p [[k p'] [-> Hin]]%list_elem_of_fmap. simpl.
    apply elem_of_map_to_list in Hin. by eapply processes_dict_elem.
  - intros i. rewrite Hfst, <- processes_dict_known.
    rewrite list_elem_of_fmap. split.
    + intros [[k p] [-> Hin]]. apply elem_of_map_to_list in Hin. by eexists.
    + intros [p Hp]. exists (i, p). split; [done|]. by apply elem_of_map_to_list.
Qed.

(** X11.  After a successful reload the executor files the new processes
    under their own identifiers and its cache is empty: the next request
    with a map, for identifiers it now knows, is answered by the factory's
    fresh batch, whatever the cache held before. *)
Theorem reload_invalidates_cache self ps (identifiers : list string) (uri : string) :
  qgis_enabled (_factory self) = true →
  identifiers ≠ [] →
  (∀ i, i ∈ identifiers → i ∈ identifier <$> ps) →
  let out := reload_qgis_processes (Returned ps) self in
  let self' := out.1.2 in
  out.1.1 = Returned tt ∧
  processes_keyed self' ∧
  entries (_context_processes self') = [] ∧
  _factory self' = _factory self ∧
  (get_processes self' identifiers (Some uri)).1
    = Returned (create_contextualized_processes (_factory self) identifiers uri).
Proof.
  intros Hq Hne Hknown out self'. subst self' out.
  unfold reload_qgis_processes. rewrite Hq. simpl.
  split; [done|]. split; [apply processes_dict_keyed|]. split; [done|]. split; [done|].
  unfold get_processes. simpl.
  destruct (lookup_processes_known (processes_dict ps) identifiers) as (qs & -> & Hqs).
  { intros i Hi. apply processes_dict_known. by apply Hknown. }
  rewrite Hq.
  destruct Hqs as [|i q ids qs' _ _]; [done|]. done.
Qed.

End BuildReload.

(** ** More on the scheduler *)

Section SchedulerMore.
Context `{E : StatusEnum}.

(** X12.  What the worker leaves behind.  On a job that has a record,
    [_run_process] returns the document exactly when its working directory
    exists and the handler returns, and then the record is marked done; when
    the handler fails, the very exception that escaped it is raised again and
    the record is marked failed, with the handler's message for a process
    exception and "Internal error" otherwise; when the working directory is
    missing the handler's behaviour does not matter: the record is marked
    failed with "Internal error" and [FileNotFoundError] is raised.  No
    directory is created or removed. *)
Theorem run_process_outcome (h : handler_behaviour) (req : WPSRequest)
    (resp : WPSResponse) (w : World) (r : JobRecord) :
  records w !! resp_uuid resp = Some r →
  let res := _run_process h req resp w in
  let id := resp_uuid resp in
  let wd := proc_workdir (process resp) in
  (returned res ↔ wd ∈ dirs w ∧ h = Returns) ∧
  (wd ∈ dirs w → h = Returns →
     (∃ w', res = Ret (document resp) w') ∧ marked_done id (world_of res)) ∧
  (wd ∈ dirs w → ∀ e, h = Fails e →
     (∃ w', res = Raise e w') ∧
     marked_failed id (if is_ProcessException e then exn_str e else "Internal error")
       (world_of res)) ∧
  (wd ∉ dirs w →
     (∃ w', res = Raise (FileNotFoundError wd) w') ∧
     marked_failed id "Internal error" (world_of res)) ∧
  dirs (world_of res) = dirs w.
Proof.
  intros Hr res id wd. subst res id wd.
  unfold _run_process, memory_logger, call_handler, os_chdir, update_status.
  unfold_monad. unfold marked_done, marked_failed.
  destruct (decide (proc_workdir (process resp) ∈ dirs w)) as [Hd|Hd].
  - rewrite (bool_decide_eq_true_2 _ Hd).
    destruct h as [|e]; simpl.
    + repeat split; try done; try (by eexists).
      rewrite !lookup_alter_eq, Hr. simpl. by eexists.
    + destruct e; simpl; rewrite ?lookup_alter_eq, ?Hr; simpl;
        (split; [split; [done|by intros [_ ?]]|]);
        (split; [done|]);
        (split; [intros _ e' [= <-]; split; by eexists|]);
        (split; [done|done]).
  - rewrite (bool_decide_eq_false_2 _ Hd). simpl.
    rewrite lookup_alter_eq, Hr. simpl.
    split; [split; [done|by intros [? _]]|].
    split; [done|]. split; [done|].
    split; [|done]. intros _. split; by eexists.
Qed.

(** X13.  A synchronous call that goes through: when the handler returns and
    the working directory exists, [execute] returns the document produced by
    the worker and schedules no detached task; the record is marked done, and
    the call filed the request, submitted it, and saw the worker announce its
    start and its end, in that order. *)
Theorem execute_sync_success (req : WPSRequest) (resp : WPSResponse) (w : World) :
  sync_mode resp →
  handler (process resp) = Returns →
  proc_workdir (process resp) ∈ dirs w →
  let res := execute Completes req resp w in
  let id := resp_uuid resp in
  (∃ w', res = Ret (document resp, None) w') ∧
  marked_done id (world_of res) ∧
  trace (world_of res)
  = [LogInfo "{4}:{0} memory" [id; identifier (process resp)];
     UpdateStatus id "Task finished" (Some 100) (Some DONE_STATUS);
     UpdateStatus id "Task started" (Some 0) None;
     ApplyAsync id (req_timeout req);
     LogRequest id] ++ trace w.
Proof.
  intros Hs Hh Hd res id. subst res id.
  unfold sync_mode in Hs. apply Z.eqb_neq in Hs.
  unfold_execute. simpl. rewrite Hs, Hh. simpl.
  rewrite bool_decide_eq_true_2 by done. simpl.
  split; [by eexists|]. split; [|done].
  unfold marked_done. simpl.
    rewrite !lookup_alter_eq, lookup_insert_eq. simpl. by eexists.
Qed.

(** X14.  A synchronous call whose pool fails with an exception [execute] has
    no clause for: the exception reaches the caller as it is, and the call
    made no status update; the record is the one filed on acceptance. *)
Theorem execute_sync_unhandled (req : WPSRequest) (resp : WPSResponse) (w : World)
    (e : exn) :
  sync_mode resp →
  handled_by_execute e = false →
  let res := execute (Breaks e) req resp w in
  let id := resp_uuid resp in
  (∃ w', res = Raise e w') ∧
  records (world_of res) = <[id := accepted_record id req]> (records w) ∧
  trace (world_of res) = [ApplyAsync id (req_timeout req); LogRequest id] ++ trace w.
Proof.
  intros Hs He res id. subst res id.
  unfold sync_mode in Hs. apply Z.eqb_neq in Hs.
  unfold_execute. simpl. rewrite Hs. simpl.
  destruct e; simpl in *; try done; by (split; [by eexists|]).
Qed.

(** X15.  A call in store-and-update mode that goes through: [execute]
    answers at once with the acknowledgement document, the record then reads
    "Task accepted" under the status it was filed with, and once the event
    loop has run the detached task the record is marked done; the task itself
    returns and makes no status update of its own, the worker's are the only
    ones. *)
Theorem execute_async_success (req : WPSRequest) (resp : WPSResponse) (w : World) :
  async_mode resp →
  handler (process resp) = Returns →
  proc_workdir (process resp) ∈ dirs w →
  let id := resp_uuid resp in
  ∃ w1 task,
    execute Completes req resp w = Ret (document resp, Some task) w1 ∧
    (∃ r, records w1 !! id = Some r ∧ status r = name ACCEPTED_STATUS ∧
          message r = "Task accepted") ∧
    returned (task w1) ∧
    marked_done id (run_detached task w1) ∧
    trace (run_detached task w1)
    = [LogInfo "{4}:{0} memory" [id; identifier (process resp)];
       UpdateStatus id "Task finished" (Some 100) (Some DONE_STATUS);
       UpdateStatus id "Task started" (Some 0) None] ++ trace w1.
Proof.
  intros Ha Hh Hd id. subst id.
  unfold async_mode in Ha. apply Z.eqb_eq in Ha.
  unfold run_detached. unfold_execute. simpl. rewrite Ha, Hh. simpl.
  eexists _, _. split; [reflexivity|]. simpl.
  rewrite bool_decide_eq_true_2 by done. simpl.
  split; [|split; [done|split; [|done]]].
  - simpl. rewrite lookup_alter_eq, lookup_insert_eq. simpl. by eexists.
  - unfold marked_done. simpl.
    rewrite !lookup_alter_eq, lookup_insert_eq. simpl. by eexists.
Qed.

(** X16.  In store-and-update mode the message of a process exception does
    not last: the worker writes it to the record, then the detached task
    catches the pool's [RequestBackendError] under its last clause and
    replaces it with "Internal Error"; the task returns. *)
Theorem execute_async_process_exception (req : WPSRequest) (resp : WPSResponse)
    (w : World) (msg : string) :
  async_mode resp →
  handler (process resp) = Fails (ProcessException msg) →
  proc_workdir (process resp) ∈ dirs w →
  let id := resp_uuid resp in
  ∃ w1 task,
    execute Completes req resp w = Ret (document resp, Some task) w1 ∧
    returned (task w1) ∧
    marked_failed id "Internal Error" (run_detached task w1) ∧
    ∃ between before,
      trace (run_detached task w1)
      = [UpdateStatus id "Internal Error" None (Some ERROR_STATUS)] ++ between ++
        [UpdateStatus id msg None (Some ERROR_STATUS)] ++ before.
Proof.
  intros Ha Hh Hd id. subst id.
  unfold async_mode in Ha. apply Z.eqb_eq in Ha.
  unfold run_detached. unfold_execute. simpl. rewrite Ha, Hh. simpl.
  eexists _, _. split; [reflexivity|]. simpl.
  rewrite bool_decide_eq_true_2 by done. simpl.
  split; [done|]. split.
  - unfold marked_failed. simpl.
    rewrite !lookup_alter_eq, lookup_insert_eq. simpl. by eexists.
  - by eexists [_], _.
Qed.

(** The detached task only writes to the record of its own job, if its
    future does. *)
Lemma do_execute_async_frame (resp : WPSResponse) (fut : Future) (w : World) (k : string) :
  k ≠ resp_uuid resp →
  records (world_of (fut w)) !! k = records w !! k →
  dirs (world_of (fut w)) = dirs w →
  records (world_of (do_execute_async resp fut w)) !! k = records w !! k ∧
  dirs (world_of (do_execute_async resp fut w)) = dirs w.
Proof.
  intros Hne Hrec Hdirs. unfold do_execute_async, update_status. unfold_monad.
  destruct (fut w) as [a w1|e w1]; simpl in *; [done|].
  destruct e; simpl; rewrite ?lookup_alter_ne by done; done.
Qed.

(** X22.  A call is contained to its own job: whatever the mode, the pool
    and the handler do, [execute] leaves the records of the other jobs and
    all directories as they were, and so does the detached task it hands to
    the event loop, whenever that task runs. *)
Theorem execute_frame (pool : pool_behaviour) (req : WPSRequest) (resp : WPSResponse)
    (w : World) (k : string) :
  k ≠ resp_uuid resp →
  let res := execute pool req resp w in
  records (world_of res) !! k = records w !! k ∧
  dirs (world_of res) = dirs w ∧
  ∀ doc task w1, res = Ret (doc, Some task) w1 →
    ∀ w2, records (run_detached task w2) !! k = records w2 !! k ∧
          dirs (run_detached task w2) = dirs w2.
Proof.
  intros Hne res. subst res.
  split; [|split].
  - unfold_execute. simpl.
    destruct (value (resp_status resp) =? value STORE_AND_UPDATE_STATUS); simpl.
    { by rewrite lookup_alter_ne, lookup_insert_ne. }
    destruct pool as [|b| |e]; simpl.
    + by rewrite lookup_insert_ne.
    + destruct b; simpl; rewrite ?lookup_alter_ne, lookup_insert_ne by done; done.
    + destruct (handler (process resp)) as [|e]; simpl; case_bool_decide; simpl;
        try (destruct e; simpl);
        rewrite ?lookup_alter_ne, lookup_insert_ne by done; done.
    + destruct e; simpl; try destruct (is_ProcessException e); simpl;
        rewrite ?lookup_alter_ne, lookup_insert_ne by done; done.
  - unfold_execute. simpl.
    destruct (value (resp_status resp) =? value STORE_AND_UPDATE_STATUS); simpl; [done|].
    destruct pool as [|b| |e]; simpl; [done|by destruct b| |].
    + destruct (handler (process resp)) as [|e]; simpl; case_bool_decide; simpl;
        try (destruct e; simpl); done.
    + destruct e; simpl; try destruct (is_ProcessException e); done.
  - intros doc task w1 Hres w2. unfold run_detached.
    unfold execute, pool_apply_async, asyncio_ensure_future, logstore_log_request in Hres.
    unfold_monad. simpl in Hres.
    destruct (value (resp_status resp) =? value STORE_AND_UPDATE_STATUS); simpl in Hres;
      cycle 1.
    { destruct pool as [|b| |e]; simpl in Hres.
      - done.
      - unfold update_status in Hres. unfold_monad. by destruct b.
      - unfold _run_process, memory_logger, call_handler, os_chdir, update_status in Hres.
        unfold_monad.
        destruct (handler (process resp)) as [|e]; simpl in Hres;
          case_bool_decide; simpl in Hres; try done.
        all: destruct e; simpl in Hres; done.
      - unfold update_status in Hres. unfold_monad.
        destruct e; simpl in Hres; try done.
        by destruct (is_ProcessException e). }
    unfold update_status at 1 in Hres. unfold_monad. simpl in Hres.
    injection Hres as _ <- _.
    apply do_execute_async_frame; [done| |].
    + destruct pool as [|b| |e]; simpl; [done| | |done].
      * unfold update_status. unfold_monad.
        destruct b; simpl; rewrite ?lookup_alter_ne by done; done.
      * unfold _run_process, memory_logger, call_handler, os_chdir, update_status.
        unfold_monad.
        destruct (handler (process resp)) as [|e]; simpl; case_bool_decide; simpl;
          try (destruct e; simpl); rewrite ?lookup_alter_ne by done; done.
    + destruct pool as [|b| |e]; simpl; [done| | |done].
      * unfold update_status. unfold_monad. by destruct b.
      * unfold _run_process, memory_logger, call_handler, os_chdir, update_status.
        unfold_monad.
        destruct (handler (process resp)) as [|e]; simpl; case_bool_decide; simpl;
          try (destruct e; simpl); done.
Qed.

End SchedulerMore.

(** ** The scheduler and the reaper together *)

Section SchedulerAndReaper.
Context `{E : StatusEnum}.
Variable cfg : Config.

(** X17.  A request the pool rejects as saturated leaves a record without a
    timestamp, which the reaper takes for a dangling one: the next scan of
    the keyed store deletes it, however long its retention. *)
Theorem saturated_request_is_reaped (req : WPSRequest) (resp : WPSResponse)
    (w : World) :
  sync_mode resp →
  store_keyed w →
  let w1 := world_of (execute Saturated req resp w) in
  records w1 !! resp_uuid resp = Some (accepted_record (resp_uuid resp) req) ∧
  records (world_of (_clean_processes cfg w1)) !! resp_uuid resp = None.
Proof.
  intros Hs Hkeyed w1.
  assert (Hw1 : records w1 = <[resp_uuid resp := accepted_record (resp_uuid resp) req]>
                               (records w)).
  { subst w1. unfold sync_mode in Hs. apply Z.eqb_neq in Hs.
    unfold_execute. simpl. by rewrite Hs. }
  assert (Hk1 : store_keyed w1).
  { unfold store_keyed. rewrite Hw1. by apply map_Forall_insert_2. }
  assert (Hr : records w1 !! resp_uuid resp
               = Some (accepted_record (resp_uuid resp) req)).
  { rewrite Hw1. apply lookup_insert_eq. }
  split; [done|].
  rewrite clean_processes_eq. unfold world_of.
  by rewrite (scan_lookup cfg _ w1 _ _ Hk1 Hr).
Qed.

End SchedulerAndReaper.

(** ** Status requests *)

Section StatusRequests.
Context `{E : StatusEnum}.
Variable cfg : Config.
Variable links : StatusLinks.

(** X18.  DELETE and GET agree.  On a keyed store, after a DELETE answered
    with 200 a status request for the same id is answered with 404 and the
    text "process <id> not found"; after a DELETE answered with 409 the
    status request still shows the record, unchanged. *)
Theorem status_after_delete (id : string) (w : World) :
  store_keyed w →
  let res := StatusHandler_delete cfg (Some id) w in
  let w' := world_of res in
  (∀ reply, res = Ret reply w' → http_status reply = 200 →
     get_wps_status links (Some id) w'
     = Ret {| reply_code := 404;
              reply_body := ErrorBody ("process " +:+ id +:+ " not found") |} w') ∧
  (∀ reply, res = Ret reply w' → http_status reply = 409 →
     ∃ r, records w !! id = Some r ∧
          get_wps_status links (Some id) w'
          = Ret {| reply_code := 200; reply_body := OneStatus (repl links r) |} w').
Proof.
  intros Hkeyed res w'. subst res w'.
  rewrite StatusHandler_delete_eq, delete_results_eq.
  unfold get_wps_status, logstore_get_status. unfold_monad.
  destruct (records w !! id) as [r|] eqn:Hr.
  - destruct (in_flight r); unfold world_of.
    + split; [by intros reply [= <-]|]. intros _ _ _. exists r. by rewrite Hr.
    + assert (Hid : uuid r = id) by (by apply Hkeyed).
      split; [|by intros reply [= <-]]. intros _ _ _.
      by rewrite deleted_records, Hid, lookup_delete_eq.
  - unfold world_of. split; by intros reply [= <-].
Qed.

(** X19.  The listing and the single status request agree.  A status request
    without an id is answered with 200 and one view per record of the store,
    never with 404; on a keyed store an id occurs in the listing exactly when
    the request for that id is not answered with 404, and every view links
    back to the request of its own job. *)
Theorem status_listing_agrees (w : World) :
  store_keyed w →
  ∃ views,
    get_wps_status links None w
      = Ret {| reply_code := 200; reply_body := AllStatus views |} w ∧
    length views = size (records w) ∧
    (∀ id,
       (∃ v, v ∈ views ∧ uuid (view_record v) = id) ↔
       ∃ r, get_wps_status links (Some id) w
            = Ret {| reply_code := 200; reply_body := OneStatus (repl links r) |} w) ∧
    (∀ v, v ∈ views →
       request_url v
       = proxy_url links +:+ "status/" +:+ uuid (view_record v) +:+ "?key=request").
Proof.
  intros Hkeyed. unfold get_wps_status, logstore_get_status_all, logstore_get_status.
  unfold_monad. eexists. split; [done|]. split; [|split].
  - by rewrite !length_fmap, length_map_to_list.
  - intros id. split.
    + intros (v & Hv & Hid).
      apply list_elem_of_fmap in Hv as (r & -> & Hr).
      apply list_elem_of_fmap in Hr as ([k r'] & -> & Hin).
      apply elem_of_map_to_list in Hin. simpl in *.
      pose proof (Hkeyed _ _ Hin) as Hk. exists r'.
      assert (k = id) by congruence. subst k. by rewrite Hin.
    + intros [r Heq]. destruct (records w !! id) as [r'|] eqn:Hr; [|done].
      exists (repl links r'). split; [|by apply Hkeyed].
      apply list_elem_of_fmap. exists r'. split; [done|].
      apply list_elem_of_fmap. exists (id, r'). split; [done|].
      by apply elem_of_map_to_list.
  - intros v (r & -> & _)%list_elem_of_fmap. done.
Qed.

End StatusRequests.

(** * Worked instances *)

(** C1, as the specification words it, fails on a running job: at time 600
    the job started at 100 with a timeout of 1000 is past its retention of
    100, so the rule calls it expired and not pinned, yet the scan keeps
    it. *)
Lemma reaper_keeps_running_job_past_expiration :
  ¬ (records (world_of (_clean_processes (E := wps_status) sample_cfg sample_world))
       !! "job-1" = None
     ↔ reclaimable (E := wps_status) sample_cfg 600 running_job).
Proof.
  intros [_ H].
  assert (Hrule : reclaimable (E := wps_status) sample_cfg 600 running_job).
  { split.
    - intros Hpin. vm_compute in Hpin. done.
    - right. exists 100. split; [reflexivity|]. vm_compute. done. }
  apply H in Hrule. vm_compute in Hrule. done.
Qed.

(** C9, the statement applied: the legacy record of the sample store, whose
    timeout of 10 seconds is long gone at time 600, is kept until its
    expiration of 1000 seconds. *)
Lemma reaper_tolerates_unknown_status_witness :
  store_keyed sample_world ∧
  records sample_world !! "job-3" = Some legacy_job ∧
  unknown_status (E := wps_status) legacy_job ∧
  returned (_clean_processes (E := wps_status) sample_cfg sample_world) ∧
  records (world_of (_clean_processes (E := wps_status) sample_cfg sample_world))
    !! "job-2" =
  records (world_of (_clean_processes (E := wps_status) sample_cfg
                       (set_records (delete "job-3") sample_world))) !! "job-2".
Proof.
  assert (Hkeyed : store_keyed sample_world).
  { unfold store_keyed. apply (bool_decide_unpack _). vm_compute. exact I. }
  assert (Hk : records sample_world !! "job-3" = Some legacy_job) by reflexivity.
  assert (Hunk : unknown_status (E := wps_status) legacy_job) by reflexivity.
  destruct (reaper_tolerates_unknown_status (E := wps_status) sample_cfg
              sample_world "job-3" legacy_job Hkeyed Hk Hunk)
    as (_ & Hret & _ & Hothers).
  split; [exact Hkeyed|]. split; [exact Hk|]. split; [exact Hunk|].
  split; [exact Hret|].
  apply Hothers. discriminate.
Defined.

(** C1, the statement applied: the finished job of the sample store, past its
    retention at time 600. *)
Lemma reaper_reclaims_exactly_witness :
  store_keyed sample_world ∧
  records sample_world !! "job-2" = Some finished_job ∧
  records (world_of (_clean_processes (E := wps_status) sample_cfg sample_world))
    !! "job-2" = None.
Proof.
  assert (Hkeyed : store_keyed sample_world).
  { unfold store_keyed. apply (bool_decide_unpack _). vm_compute. exact I. }
  assert (Hk : records sample_world !! "job-2" = Some finished_job) by reflexivity.
  split; [exact Hkeyed|]. split; [exact Hk|].
  apply (reaper_reclaims_exactly (E := wps_status) sample_cfg sample_world
           "job-2" finished_job Hkeyed Hk).
  repeat split.
  - intros [(m & Hm & Hlt) _]. vm_compute in Hm. simplify_eq. vm_compute in Hlt. done.
  - intros Hpin. vm_compute in Hpin. done.
  - right. exists 100. split; [reflexivity|]. vm_compute. done.
Defined.

(** C2, the statement applied: deleting the finished job of the sample store
    succeeds, and deleting it again is answered with "not found". *)
Lemma delete_results_contract_witness :
  store_keyed sample_world ∧
  ∃ w',
    delete_results (E := wps_status) sample_cfg "job-2" sample_world = Ret true w' ∧
    records w' !! "job-2" = None ∧
    StatusHandler_delete (E := wps_status) sample_cfg (Some "job-2") w'
      = Ret {| http_status := 404; json := None |} w'.
Proof.
  assert (Hkeyed : store_keyed sample_world).
  { unfold store_keyed. apply (bool_decide_unpack _). vm_compute. exact I. }
  split; [exact Hkeyed|].
  destruct (delete_results_contract (E := wps_status) sample_cfg "job-2"
              sample_world Hkeyed) as (_ & _ & Hterminal).
  destruct (Hterminal finished_job) as (w' & Hdel & _ & Hgone & _ & _ & _ & Hagain).
  - reflexivity.
  - intros (m & Hm & Hlt). vm_compute in Hm. simplify_eq. vm_compute in Hlt. done.
  - exists w'. split; [exact Hdel|]. split; [exact Hgone|exact Hagain].
Defined.

(** C10, the statement applied: the legacy record of the sample store is
    deleted on request. *)
Lemma delete_results_unknown_status_witness :
  store_keyed sample_world ∧
  records sample_world !! "job-3" = Some legacy_job ∧
  unknown_status (E := wps_status) legacy_job ∧
  ∃ w',
    delete_results (E := wps_status) sample_cfg "job-3" sample_world = Ret true w' ∧
    records w' !! "job-3" = None.
Proof.
  assert (Hkeyed : store_keyed sample_world).
  { unfold store_keyed. apply (bool_decide_unpack _). vm_compute. exact I. }
  assert (Hk : records sample_world !! "job-3" = Some legacy_job) by reflexivity.
  assert (Hunk : unknown_status (E := wps_status) legacy_job) by reflexivity.
  split; [exact Hkeyed|]. split; [exact Hk|]. split; [exact Hunk|].
  destruct (delete_results_unknown_status (E := wps_status) sample_cfg "job-3"
              sample_world legacy_job Hkeyed Hk Hunk)
    as (_ & w' & Hdel & Hgone & _).
  exists w'. split; [exact Hdel|exact Hgone].
Defined.

(** C3, the statement applied: the sample request, waited for, on a pool
    that times out after the worker started. *)
Lemma execute_sync_timeout_witness :
  sync_mode (E := wps_status) sync_response ∧
  marked_failed (E := wps_status) "job-9" "Timeout Error"
    (world_of (execute (E := wps_status) (TimesOut true) sample_request
                 sync_response fresh_world)).
Proof.
  assert (Hs : sync_mode (E := wps_status) sync_response).
  { unfold sync_mode. vm_compute. discriminate. }
  split; [exact Hs|].
  exact (proj1 (proj2 (execute_sync_timeout (E := wps_status) sample_request
                         sync_response fresh_world true Hs))).
Defined.

(** C5, the statement applied: the sample request, waited for, on a
    saturated pool. *)
Lemma execute_sync_saturated_witness :
  sync_mode (E := wps_status) sync_response ∧
  trace (world_of (execute (E := wps_status) Saturated sample_request
                     sync_response fresh_world))
  = [ApplyAsync "job-9" 5; LogRequest "job-9"].
Proof.
  assert (Hs : sync_mode (E := wps_status) sync_response).
  { unfold sync_mode. vm_compute. discriminate. }
  split; [exact Hs|].
  destruct (execute_sync_saturated (E := wps_status) sample_request
              sync_response fresh_world Hs) as (_ & _ & _ & _ & Htrace & _).
  exact Htrace.
Defined.

(** C4, the statement applied: the sample request in store-and-update mode
    on a saturated pool; the call returns the document. *)
Lemma detached_task_swallows_failures_witness :
  async_mode (E := wps_status) async_response ∧
  ∃ w1 task,
    execute (E := wps_status) Saturated sample_request async_response fresh_world
      = Ret ("<wps:ExecuteResponse/>", Some task) w1.
Proof.
  assert (Ha : async_mode (E := wps_status) async_response) by reflexivity.
  split; [exact Ha|].
  destruct (detached_task_swallows_failures (E := wps_status) Saturated
              sample_request async_response fresh_world Ha)
    as (w1 & fut & Hex & _).
  exists w1. eexists. exact Hex.
Defined.

(** C6, the statement applied: the sample request, waited for, whose handler
    lets an unexpected error escape. *)
Lemma execute_sync_worker_failure_witness :
  sync_mode (E := wps_status) sync_response ∧
  handler (process sync_response)
    = Fails (OtherError "connection to db refused: password=hunter2") ∧
  proc_workdir (process sync_response) ∈ dirs fresh_world ∧
  marked_failed (E := wps_status) "job-9" "Internal error"
    (world_of (execute (E := wps_status) Completes sample_request
                 sync_response fresh_world)).
Proof.
  assert (Hs : sync_mode (E := wps_status) sync_response).
  { unfold sync_mode. vm_compute. discriminate. }
  assert (Hd : proc_workdir (process sync_response) ∈ dirs fresh_world).
  { apply (bool_decide_unpack _). vm_compute. exact I. }
  split; [exact Hs|]. split; [reflexivity|]. split; [exact Hd|].
  destruct (execute_sync_worker_failure (E := wps_status) sample_request
              sync_response fresh_world _ Hs eq_refl Hd) as [_ Hother].
  exact (proj2 (Hother eq_refl)).
Defined.

(** C6, as the specification words it, fails on an unexpected error: the
    call does not fail with a [NoApplicableCode] at all, it re-raises the
    pool's [RequestBackendError], and the exception the caller receives
    carries the handler's error with its detail. *)
Lemma execute_sync_unexpected_failure_reraised :
  (∃ w', execute (E := wps_status) Completes sample_request sync_response fresh_world
         = Raise (RequestBackendError
                    (OtherError "connection to db refused: password=hunter2")) w') ∧
  ¬ (∃ msg code w',
       execute (E := wps_status) Completes sample_request sync_response fresh_world
       = Raise (NoApplicableCode msg code) w').
Proof.
  split.
  - eexists. vm_compute. reflexivity.
  - intros (msg & code & w' & H). vm_compute in H. discriminate.
Qed.

(** C7, the statement applied: two identifiers requested for a map from an
    executor with an empty cache; both are specialised and cached. *)
Lemma get_processes_cache_witness :
  qgis_enabled (_factory sample_executor) = true ∧
  processes_keyed sample_executor ∧
  (∀ i, i ∈ ["script:buffer"; "script:centroids"] →
        is_Some (processes sample_executor !! i)) ∧
  (get_processes sample_executor ["script:buffer"; "script:centroids"]
     (Some "france.qgs")).1
  = Returned (specialise ["script:buffer"; "script:centroids"] "france.qgs").
Proof.
  assert (Hkeyed : processes_keyed sample_executor).
  { unfold processes_keyed. apply (bool_decide_unpack _). vm_compute. exact I. }
  assert (Hknown : ∀ i, i ∈ ["script:buffer"; "script:centroids"] →
                        is_Some (processes sample_executor !! i)).
  { intros i Hi. apply elem_of_cons in Hi as [->|Hi]; [by eexists|].
    apply elem_of_cons in Hi as [->|Hi]; [by eexists|]. by apply elem_of_nil in Hi. }
  split; [reflexivity|]. split; [exact Hkeyed|]. split; [exact Hknown|].
  destruct (get_processes_cache sample_executor ["script:buffer"; "script:centroids"]
              "france.qgs" eq_refl Hkeyed Hknown) as [_ Hmiss].
  apply Hmiss. intros Hall.
  destruct (Hall "script:buffer") as [p Hp]; [set_solver|]. vm_compute in Hp. done.
Defined.

(** ** Instances beyond the claims *)

Lemma sample_world_keyed : store_keyed sample_world.
Proof. unfold store_keyed. apply (bool_decide_unpack _). vm_compute. exact I. Defined.

Lemma pinned_world_keyed : store_keyed pinned_world.
Proof. unfold store_keyed. apply (bool_decide_unpack _). vm_compute. exact I. Defined.

Lemma sync_ok_response_sync : sync_mode (E := wps_status) sync_ok_response.
Proof. unfold sync_mode. vm_compute. discriminate. Defined.

Lemma job9_workdir_exists : "/srv/wps/job-9" ∈ dirs fresh_world.
Proof. apply (bool_decide_unpack _). vm_compute. exact I. Defined.

(** X2, applied to the sample store. *)
Lemma clean_processes_idempotent_witness :
  store_keyed sample_world ∧
  let w' := world_of (_clean_processes (E := wps_status) sample_cfg sample_world) in
  _clean_processes (E := wps_status) sample_cfg w' = Ret tt w'.
Proof.
  split; [exact sample_world_keyed|].
  exact (clean_processes_idempotent (E := wps_status) sample_cfg sample_world
           sample_world_keyed).
Defined.

(** X3, applied: the running job of the sample store after three turns of
    one hour. *)
Lemma cleanup_loop_decides_at_last_turn_witness :
  store_keyed sample_world ∧
  records sample_world !! "job-1" = Some running_job ∧
  returned (_run_cleanup (E := wps_status) sample_cfg 3600 3 sample_world).
Proof.
  split; [exact sample_world_keyed|]. split; [reflexivity|].
  exact (proj1 (cleanup_loop_decides_at_last_turn (E := wps_status) sample_cfg 3600 2
                  sample_world "job-1" running_job sample_world_keyed eq_refl)).
Defined.

(** X4, applied: the pinned job after a thousand turns of one hour. *)
Lemma cleanup_loop_spares_pinned_witness :
  store_keyed pinned_world ∧
  records pinned_world !! "job-7" = Some pinned_job ∧
  is_pinned pinned_job ∧
  records (world_of (_run_cleanup (E := wps_status) sample_cfg 3600 1000 pinned_world))
    !! "job-7" = Some pinned_job.
Proof.
  split; [exact pinned_world_keyed|]. split; [reflexivity|]. split; [reflexivity|].
  exact (cleanup_loop_spares_pinned (E := wps_status) sample_cfg 3600 1000 pinned_world
           "job-7" pinned_job pinned_world_keyed eq_refl eq_refl).
Defined.



(** X7, applied: an unknown identifier that holds a single quote, after a
    known one; the message has it in double quotes. *)
Lemma get_processes_unknown_witness :
  (∀ j, j ∈ ["script:buffer"] → is_Some (processes sample_executor !! j)) ∧
  processes sample_executor !! "it's" = None ∧
  is_ascii "it's" = true ∧
  get_processes sample_executor ["script:buffer"; "it's"; "script:centroids"]
    (Some "france.qgs")
  = (Raised (UnknownProcessError (String dquote ("it's" +:+ String dquote ""))),
     sample_executor).
Proof.
  assert (Hknown : ∀ j, j ∈ ["script:buffer"] →
                        is_Some (processes sample_executor !! j)).
  { intros j Hj. apply list_elem_of_singleton in Hj as ->. by eexists. }
  split; [exact Hknown|]. split; [reflexivity|]. split; [reflexivity|].
  exact (proj1 (get_processes_unknown sample_executor ["script:buffer"] "it's"
                  ["script:centroids"] (Some "france.qgs") Hknown eq_refl eq_refl)).
Defined.

(** X8, applied: a request without a map. *)
Lemma get_processes_plain_witness :
  (@None string = None ∨ qgis_enabled (_factory sample_executor) = false) ∧
  (∀ i, i ∈ ["script:centroids"] → is_Some (processes sample_executor !! i)) ∧
  get_processes sample_executor ["script:centroids"] None
  = (Returned [base_process "script:centroids"], sample_executor).
Proof.
  assert (Hknown : ∀ i, i ∈ ["script:centroids"] →
                        is_Some (processes sample_executor !! i)).
  { intros j Hj. apply list_elem_of_singleton in Hj as ->. by eexists. }
  split; [by left|]. split; [exact Hknown|].
  destruct (get_processes_plain sample_executor ["script:centroids"] None
              (or_introl eq_refl) Hknown) as (ps & -> & Hps).
  apply Forall2_cons_inv_l in Hps as (p & ps' & Hp & Hnil & ->).
  apply Forall2_nil_inv_l in Hnil as ->.
  vm_compute in Hp. by simplify_eq.
Defined.

(** X9, applied: the same two identifiers requested twice for one map. *)
Lemma get_processes_twice_witness :
  qgis_enabled (_factory sample_executor) = true ∧
  processes_keyed sample_executor ∧
  NoDup ["script:buffer"; "script:centroids"] ∧
  (let first := get_processes sample_executor ["script:buffer"; "script:centroids"]
                  (Some "france.qgs") in
   (get_processes first.2 ["script:buffer"; "script:centroids"] (Some "france.qgs")).1
   = first.1).
Proof.
  assert (Hkeyed : processes_keyed sample_executor).
  { unfold processes_keyed. apply (bool_decide_unpack _). vm_compute. exact I. }
  assert (Hknown : ∀ i, i ∈ ["script:buffer"; "script:centroids"] →
                        is_Some (processes sample_executor !! i)).
  { intros i Hi. apply elem_of_cons in Hi as [->|Hi]; [by eexists|].
    apply list_elem_of_singleton in Hi as ->. by eexists. }
  assert (Hnd : NoDup ["script:buffer"; "script:centroids"]).
  { apply (bool_decide_unpack _). vm_compute. exact I. }
  assert (Hcap : (length ["script:buffer"; "script:centroids"]
                  ≤ capacity (_context_processes sample_executor))%nat).
  { simpl. lia. }
  split; [reflexivity|]. split; [exact Hkeyed|]. split; [exact Hnd|].
  exact (proj2 (get_processes_twice sample_executor ["script:buffer"; "script:centroids"]
                  "france.qgs" eq_refl Hkeyed Hknown Hnd Hcap eq_refl)).
Defined.

(** X11, applied: the sample executor reloaded with one process. *)
Lemma reload_invalidates_cache_witness :
  qgis_enabled (_factory sample_executor) = true ∧
  ["script:hull"] ≠ [] ∧
  (∀ i, i ∈ ["script:hull"] → i ∈ identifier <$> [base_process "script:hull"]) ∧
  (get_processes
     (reload_qgis_processes (Returned [base_process "script:hull"]) sample_executor).1.2
     ["script:hull"] (Some "france.qgs")).1
  = Returned (specialise ["script:hull"] "france.qgs").
Proof.
  assert (Hknown : ∀ i, i ∈ ["script:hull"] →
                        i ∈ identifier <$> [base_process "script:hull"]).
  { intros i Hi. apply list_elem_of_singleton in Hi as ->. simpl. set_solver. }
  split; [reflexivity|]. split; [discriminate|]. split; [exact Hknown|].
  destruct (reload_invalidates_cache sample_executor [base_process "script:hull"]
              ["script:hull"] "france.qgs" eq_refl ltac:(discriminate) Hknown)
    as (_ & _ & _ & _ & Hget).
  exact Hget.
Defined.

(** X12, applied: the worker on the accepted sample job, with a handler that
    raises a process exception. *)
Lemma run_process_outcome_witness :
  records accepted_world !! "job-9"
    = Some (accepted_record (E := wps_status) "job-9" sample_request) ∧
  marked_failed (E := wps_status) "job-9" "Invalid input: DISTANCE"
    (world_of (_run_process (E := wps_status)
                 (Fails (ProcessException "Invalid input: DISTANCE"))
                 sample_request async_rejecting_response accepted_world)).
Proof.
  assert (Hr : records accepted_world !! resp_uuid async_rejecting_response
               = Some (accepted_record (E := wps_status) "job-9" sample_request))
    by reflexivity.
  split; [exact Hr|].
  destruct (run_process_outcome (E := wps_status)
              (Fails (ProcessException "Invalid input: DISTANCE"))
              sample_request async_rejecting_response accepted_world _ Hr)
    as (_ & _ & Hfails & _).
  refine (proj2 (Hfails _ _ eq_refl)).
  apply (bool_decide_unpack _). vm_compute. exact I.
Defined.

(** X13, applied: the sample request, waited for, with a handler that
    returns. *)
Lemma execute_sync_success_witness :
  sync_mode (E := wps_status) sync_ok_response ∧
  handler (process sync_ok_response) = Returns ∧
  proc_workdir (process sync_ok_response) ∈ dirs fresh_world ∧
  marked_done (E := wps_status) "job-9"
    (world_of (execute (E := wps_status) Completes sample_request sync_ok_response
                 fresh_world)).
Proof.
  split; [exact sync_ok_response_sync|]. split; [reflexivity|].
  split; [exact job9_workdir_exists|].
  exact (proj1 (proj2 (execute_sync_success (E := wps_status) sample_request
                         sync_ok_response fresh_world sync_ok_response_sync eq_refl
                         job9_workdir_exists))).
Defined.

(** X14, applied: the pool client fails with a connection error. *)
Lemma execute_sync_unhandled_witness :
  sync_mode (E := wps_status) sync_ok_response ∧
  handled_by_execute (OtherError "connection reset") = false ∧
  ∃ w', execute (E := wps_status) (Breaks (OtherError "connection reset"))
          sample_request sync_ok_response fresh_world
        = Raise (OtherError "connection reset") w'.
Proof.
  split; [exact sync_ok_response_sync|]. split; [reflexivity|].
  exact (proj1 (execute_sync_unhandled (E := wps_status) sample_request
                  sync_ok_response fresh_world (OtherError "connection reset")
                  sync_ok_response_sync eq_refl)).
Defined.

(** X15, applied: the sample request in store-and-update mode, with a
    handler that returns. *)
Lemma execute_async_success_witness :
  async_mode (E := wps_status) async_ok_response ∧
  handler (process async_ok_response) = Returns ∧
  proc_workdir (process async_ok_response) ∈ dirs fresh_world ∧
  ∃ w1 task,
    execute (E := wps_status) Completes sample_request async_ok_response fresh_world
      = Ret ("<wps:ExecuteResponse/>", Some task) w1 ∧
    marked_done (E := wps_status) "job-9" (run_detached task w1).
Proof.
  split; [reflexivity|]. split; [reflexivity|]. split; [exact job9_workdir_exists|].
  destruct (execute_async_success (E := wps_status) sample_request async_ok_response
              fresh_world eq_refl eq_refl job9_workdir_exists)
    as (w1 & task & Hex & _ & _ & Hdone & _).
  exists w1, task. split; [exact Hex|exact Hdone].
Defined.

(** X16, applied: the sample request in store-and-update mode, with a
    handler that raises a process exception. *)
Lemma execute_async_process_exception_witness :
  async_mode (E := wps_status) async_rejecting_response ∧
  handler (process async_rejecting_response)
    = Fails (ProcessException "Invalid input: DISTANCE") ∧
  proc_workdir (process async_rejecting_response) ∈ dirs fresh_world ∧
  ∃ w1 task,
    execute (E := wps_status) Completes sample_request async_rejecting_response
      fresh_world
      = Ret ("<wps:ExecuteResponse/>", Some task) w1 ∧
    marked_failed (E := wps_status) "job-9" "Internal Error" (run_detached task w1).
Proof.
  split; [reflexivity|]. split; [reflexivity|]. split; [exact job9_workdir_exists|].
  destruct (execute_async_process_exception (E := wps_status) sample_request
              async_rejecting_response fresh_world "Invalid input: DISTANCE"
              eq_refl eq_refl job9_workdir_exists)
    as (w1 & task & Hex & _ & Hfailed & _).
  exists w1, task. split; [exact Hex|exact Hfailed].
Defined.

(** X17, applied: the sample request rejected by a saturated pool, then a
    scan of the sample store. *)
Lemma saturated_request_is_reaped_witness :
  sync_mode (E := wps_status) sync_ok_response ∧
  store_keyed sample_world ∧
  records (world_of (_clean_processes (E := wps_status) sample_cfg
                       (world_of (execute (E := wps_status) Saturated sample_request
                                    sync_ok_response sample_world))))
    !! "job-9" = None.
Proof.
  split; [exact sync_ok_response_sync|]. split; [exact sample_world_keyed|].
  exact (proj2 (saturated_request_is_reaped (E := wps_status) sample_cfg sample_request
                  sync_ok_response sample_world sync_ok_response_sync
                  sample_world_keyed)).
Defined.

(** X18, applied: the finished job of the sample store, deleted and then
    asked for. *)
Lemma status_after_delete_witness :
  store_keyed sample_world ∧
  get_wps_status sample_links (Some "job-2")
    (world_of (StatusHandler_delete (E := wps_status) sample_cfg (Some "job-2")
                 sample_world))
  = Ret {| reply_code := 404; reply_body := ErrorBody "process job-2 not found" |}
      (world_of (StatusHandler_delete (E := wps_status) sample_cfg (Some "job-2")
                   sample_world)).
Proof.
  split; [exact sample_world_keyed|].
  destruct (status_after_delete (E := wps_status) sample_cfg sample_links "job-2"
              sample_world sample_world_keyed) as [Hgone _].
  apply (Hgone {| http_status := 200; json := None |}); [|reflexivity].
  vm_compute. reflexivity.
Defined.

(** X19, applied: the listing of the sample store. *)
Lemma status_listing_agrees_witness :
  store_keyed sample_world ∧
  ∃ views,
    get_wps_status sample_links None sample_world
      = Ret {| reply_code := 200; reply_body := AllStatus views |} sample_world ∧
    length views = 3%nat.
Proof.
  split; [exact sample_world_keyed|].
  destruct (status_listing_agrees sample_links sample_world sample_world_keyed)
    as (views & Hget & Hlen & _).
  exists views. split; [exact Hget|]. rewrite Hlen. vm_compute. reflexivity.
Defined.

(** X21, applied: the finished job of the sample store on a file system that
    refuses to remove its working directory. *)
Lemma reaper_survives_failed_removal_witness :
  store_keyed stubborn_world ∧
  records stubborn_world !! "job-2" = Some finished_job ∧
  ¬ live (E := wps_status) (clock stubborn_world) finished_job ∧
  reclaimable (E := wps_status) sample_cfg (clock stubborn_world) finished_job ∧
  workdir_of sample_cfg finished_job ∈ dirs stubborn_world ∧
  workdir_of sample_cfg finished_job ∈ faulty stubborn_world ∧
  records (world_of (_clean_processes (E := wps_status) sample_cfg stubborn_world))
    !! "job-2" = None ∧
  "/srv/wps/job-2"
    ∈ dirs (world_of (_clean_processes (E := wps_status) sample_cfg stubborn_world)).
Proof.
  assert (Hkeyed : store_keyed stubborn_world) by exact sample_world_keyed.
  assert (Hk : records stubborn_world !! "job-2" = Some finished_job) by reflexivity.
  assert (Hnl : ¬ live (E := wps_status) (clock stubborn_world) finished_job).
  { intros [(m & Hm & Hlt) _]. vm_compute in Hm. simplify_eq. vm_compute in Hlt. done. }
  assert (Hrec : reclaimable (E := wps_status) sample_cfg (clock stubborn_world)
                   finished_job).
  { split.
    - intros Hpin. vm_compute in Hpin. done.
    - right. exists 100. split; [reflexivity|]. vm_compute. done. }
  assert (Hd : workdir_of sample_cfg finished_job ∈ dirs stubborn_world).
  { apply (bool_decide_unpack _). vm_compute. exact I. }
  assert (Hf : workdir_of sample_cfg finished_job ∈ faulty stubborn_world).
  { apply (bool_decide_unpack _). vm_compute. exact I. }
  destruct (reaper_survives_failed_removal (E := wps_status) sample_cfg stubborn_world
              "job-2" finished_job Hkeyed Hk Hnl Hrec Hd Hf)
    as (_ & Hgone & Hstill & _).
  split; [exact Hkeyed|]. split; [exact Hk|]. split; [exact Hnl|]. split; [exact Hrec|].
  split; [exact Hd|]. split; [exact Hf|]. split; [exact Hgone|exact Hstill].
Defined.

(** X22, applied: the sample request, waited for, next to the jobs of the
    sample store. *)
Lemma execute_frame_witness :
  "job-1" ≠ resp_uuid sync_response ∧
  records (world_of (execute (E := wps_status) Completes sample_request sync_response
                       sample_world)) !! "job-1"
  = Some running_job.
Proof.
  assert (Hne : "job-1" ≠ resp_uuid sync_response) by discriminate.
  split; [exact Hne|].
  rewrite (proj1 (execute_frame (E := wps_status) Completes sample_request sync_response
                    sample_world "job-1" Hne)).
  reflexivity.
Defined.
